(** * flaskmongorm: the sort/index parser, the uniqueness filter,
      class-level defaults and the error-capturing write wrapper

    A shallow embedding of [src/flaskmongorm/__init__.py].

    Python strings are embedded as [string], one character per code
    point, for the code points below 256.  Dictionaries are [gmap]s
    (dictionary equality in Python ignores insertion order), lists are
    lists, a raised exception is the [Raise] branch of [result]. *)

From Stdlib Require Import ZArith Ascii String.
From stdpp Require Import base option list strings gmap fin_maps.

Local Open Scope string_scope.
Local Open Scope list_scope.

(** ** Python string primitives used by the module *)

Module Str.

(** [c.isspace()] on the code points below 256:
    TAB LF VT FF CR, FS GS RS US, SPACE, NEL and NBSP. *)
Definition isspace (c : ascii) : bool :=
  let n := nat_of_ascii c in
  (((9 <=? n) && (n <=? 13)) || ((28 <=? n) && (n <=? 32))
   || (n =? 133) || (n =? 160))%nat.

(** [c.lower()] on the code points below 256: A-Z and the Latin-1
    capitals 0xC0-0xDE (the multiplication sign 0xD7 apart) move up
    by 32. *)
Definition lower_char (c : ascii) : ascii :=
  let n := nat_of_ascii c in
  if (((65 <=? n) && (n <=? 90))
      || ((192 <=? n) && (n <=? 222) && negb (n =? 215)))%nat
  then ascii_of_nat (n + 32) else c.

(** [s.lower()] *)
Fixpoint lower (s : string) : string :=
  match s with
  | EmptyString => EmptyString
  | String c s' => String (lower_char c) (lower s')
  end.

(** [s.lstrip()] *)
Fixpoint lstrip (s : string) : string :=
  match s with
  | EmptyString => EmptyString
  | String c s' => if isspace c then lstrip s' else s
  end.

(** [s.rstrip()] *)
Fixpoint rstrip (s : string) : string :=
  match s with
  | EmptyString => EmptyString
  | String c s' =>
      match rstrip s' with
      | EmptyString => if isspace c then EmptyString else String c EmptyString
      | r => String c r
      end
  end.

(** [s.strip()] *)
Definition strip (s : string) : string := rstrip (lstrip s).

(** [s.split(sep)] for a one-character separator: every occurrence
    of [sep] ends a piece, so the result has one piece more than
    there are separators and [''.split(sep) == ['']]. *)
Fixpoint split (sep : ascii) (s : string) : list string :=
  match s with
  | EmptyString => [EmptyString]
  | String c s' =>
      if Ascii.eqb c sep then EmptyString :: split sep s'
      else match split sep s' with
           | [] => [String c EmptyString]
           | w :: ws => String c w :: ws
           end
  end.

(** [c in s] for a one-character [c] *)
Fixpoint contains (c : ascii) (s : string) : bool :=
  match s with
  | EmptyString => false
  | String c' s' => Ascii.eqb c' c || contains c s'
  end.

(** [s.replace("  ", " ")]: one pass from the left over the
    non-overlapping occurrences of two spaces. *)
Fixpoint replace_2sp (s : string) : string :=
  match s with
  | EmptyString => EmptyString
  | String c s' =>
      match s' with
      | String c' s'' =>
          if Ascii.eqb c " " && Ascii.eqb c' " "
          then String " " (replace_2sp s'')
          else String c (replace_2sp s')
      | EmptyString => s
      end
  end.

(** truth value of a string: [bool(s)] *)
Definition nonempty (s : string) : bool :=
  match s with EmptyString => false | _ => true end.

(** [any(p(c) for c in s)] *)
Fixpoint any (p : ascii -> bool) (s : string) : bool :=
  match s with
  | EmptyString => false
  | String c s' => p c || any p s'
  end.

End Str.

(** ** Exceptions and results *)

(** The exceptions the embedded functions raise. *)
Inductive exn : Type :=
| KeyError (key : string)      (* [names[k]] for a missing [k] *)
| AttributeError               (* [.strip()] on a value that is not a string *)
| ValueError.                  (* tuple unpacking of the wrong length *)

Inductive result (A : Type) : Type :=
| Ok (a : A)
| Raise (e : exn).
Arguments Ok {A} a.
Arguments Raise {A} e.

#[global] Instance result_ret : MRet result := fun A a => Ok a.
#[global] Instance result_bind : MBind result := fun A B f m =>
  match m with Ok a => f a | Raise e => Raise e end.

(** ** Direction table *)

(** Modelled from the spec: the constants ASCENDING, DESCENDING, GEO2D,
    GEOSPHERE, HASHED and TEXT are imported from pymongo; the spec's
    DirectionToken enumerates them. *)
Inductive direction : Type :=
| ASCENDING | DESCENDING | GEO2D | GEOSPHERE | HASHED | TEXT.

Definition INDEX_NAMES : gmap string direction :=
  <["asc" := ASCENDING]> (<["ascending" := ASCENDING]>
  (<["desc" := DESCENDING]> (<["descending" := DESCENDING]>
  (<["geo2d" := GEO2D]> (<["geosphere" := GEOSPHERE]>
  (<["hashed" := HASHED]> (<["text" := TEXT]> ∅))))))).

Definition SORT_NAMES : gmap string direction :=
  <["asc" := ASCENDING]> (<["ascending" := ASCENDING]>
  (<["desc" := DESCENDING]> (<["descending" := DESCENDING]> ∅))).

(** [names[k]] *)
Definition subscript (names : gmap string direction) (k : string)
  : result direction :=
  match names !! k with
  | Some d => Ok d
  | None => Raise (KeyError k)
  end.

(** The two tables in the spec's words: the tokens that are valid for
    sorting, the tokens index creation adds, and the direction each one
    stands for. *)
Definition direction_table (for_index : bool) : list (string * direction) :=
  [("asc", ASCENDING); ("ascending", ASCENDING);
   ("desc", DESCENDING); ("descending", DESCENDING)]
  ++ (if for_index
      then [("geo2d", GEO2D); ("geosphere", GEOSPHERE);
            ("hashed", HASHED); ("text", TEXT)]
      else []).

(** ** get_sort *)

Definition sort_spec : Type := list (string * direction).

(** What a caller passes as [sort]. *)
Inductive sort_arg : Type :=
| ArgNone
| ArgList (l : sort_spec)
| ArgStr (s : string).

(** What [get_sort] returns: its argument as it came, one bare list of
    pairs ([sorts[0]]), or the list of lists [sorts]. *)
Inductive sort_value : Type :=
| RetNone
| RetList (l : sort_spec)
| RetOne (spec : sort_spec)
| RetMany (sorts : list sort_spec).

(** [names = INDEX_NAMES if for_index else SORT_NAMES] *)
Definition names_for (for_index : bool) : gmap string direction :=
  if for_index then INDEX_NAMES else SORT_NAMES.

(** [names[_sort.lower()]] *)
Definition lookup_direction (names : gmap string direction) (_sort : string)
  : result direction :=
  subscript names (Str.lower _sort).

(** The body of [if item:] (lines 52-56). *)
Definition parse_item (names : gmap string direction) (item : string)
  : result (string * direction) :=
  if Str.contains " " item then
    match take 2 (Str.split " " (Str.replace_2sp item)) with
    | [field; _sort] =>
        d ← lookup_direction names _sort; mret (field, d)
    | _ => Raise ValueError
    end
  else
    d ← subscript names "asc"; mret (item, d).

(** [for item in items.split(","): ...], threading [lst]. *)
Fixpoint items_loop (names : gmap string direction) (items : list string)
    (lst : sort_spec) : result sort_spec :=
  match items with
  | [] => Ok lst
  | item :: rest =>
      let item := Str.strip item in
      if Str.nonempty item then
        p ← parse_item names item; items_loop names rest (lst ++ [p])
      else items_loop names rest lst
  end.

(** [for items in sort.strip().split(";"): ...], threading [sorts]. *)
Fixpoint groups_loop (names : gmap string direction) (groups : list string)
    (sorts : list sort_spec) : result (list sort_spec) :=
  match groups with
  | [] => Ok sorts
  | items :: rest =>
      let items := Str.strip items in
      if Str.nonempty items then
        lst ← items_loop names (Str.split "," items) [];
        groups_loop names rest
          (match lst with [] => sorts | _ => sorts ++ [lst] end)
      else groups_loop names rest sorts
  end.

(** [return sorts[0] if len(sorts) == 1 else sorts] *)
Definition collapse (sorts : list sort_spec) : sort_value :=
  match sorts with
  | [spec] => RetOne spec
  | _ => RetMany sorts
  end.

(** [get_sort(sort, for_index=False)].  [None], and a list when
    [for_index] is false, come back as they are; a list with
    [for_index] true reaches [sort.strip()], which a list does not
    have. *)
Definition get_sort (sort : sort_arg) (for_index : bool) : result sort_value :=
  match sort with
  | ArgNone => Ok RetNone
  | ArgList l => if for_index then Raise AttributeError else Ok (RetList l)
  | ArgStr s =>
      sorts ← groups_loop (names_for for_index)
                (Str.split ";" (Str.strip s)) [];
      mret (collapse sorts)
  end.

(** The grammar in the spec's words, to compare [get_sort] with: the
    input is split on [;] into groups, each group on [,] into items,
    each item is trimmed, the empty ones are skipped, and a group that
    yields at least one pair is one entry of the output, in order. *)
Definition grammar_items (group : string) : list string :=
  List.filter Str.nonempty (map Str.strip (Str.split "," group)).

Definition nonnil {A : Type} (l : list A) : bool :=
  match l with [] => false | _ => true end.

Definition grammar_parse (names : gmap string direction) (s : string)
  : result (list sort_spec) :=
  parsed ← mapM (fun group => mapM (parse_item names) (grammar_items group))
             (Str.split ";" s);
  mret (List.filter nonnil parsed).

(** ** get_uniq_spec *)

(** The value of [{"$or": specs}]. *)
Inductive or_filter (V : Type) : Type :=
| Or (specs : list (gmap string V)).
Arguments Or {V} specs.

Section uniq.
Context {V : Type}.

(** [[f.strip() for f in field.split(",") if f.strip()]] *)
Definition group_keys (field : string) : list string :=
  map Str.strip
    (List.filter (fun f => Str.nonempty (Str.strip f)) (Str.split "," field)).

(** [for k in ...: if k in doc: spec[k] = doc[k]], threading [spec]. *)
Fixpoint keys_loop (doc : gmap string V) (ks : list string)
    (spec : gmap string V) : gmap string V :=
  match ks with
  | [] => spec
  | k :: rest =>
      keys_loop doc rest
        (match doc !! k with Some v => <[k := v]> spec | None => spec end)
  end.

(** truth value of a dictionary: [bool(spec)] *)
Definition dict_truthy (spec : gmap string V) : bool :=
  negb (Nat.eqb (size spec) 0).

(** The sub-filter of one entry of [fields]: the inner loop, started
    on [spec = {}]. *)
Definition group_spec (doc : gmap string V) (field : string)
  : gmap string V :=
  keys_loop doc (group_keys field) ∅.

(** [for field in fields: ...], threading [specs]. *)
Fixpoint fields_loop (doc : gmap string V) (fields : list string)
    (specs : list (gmap string V)) : list (gmap string V) :=
  match fields with
  | [] => specs
  | field :: rest =>
      let spec := group_spec doc field in
      fields_loop doc rest
        (if dict_truthy spec then specs ++ [spec] else specs)
  end.

(** [return {"$or": specs} if specs else None] *)
Definition get_uniq_spec (fields : list string) (doc : gmap string V)
  : option (or_filter V) :=
  match fields_loop doc fields [] with
  | [] => None
  | specs => Some (Or specs)
  end.
End uniq.

(** ** Class-level defaults *)

(** The Python values the model tells apart. *)
Inductive pyval : Type :=
| VNone
| VBool (b : bool)
| VInt (z : Z)
| VStr (s : string)
| VObj (repr : string).   (* any other object *)

(** truth value: [bool(v)].  An object counts as true, which is
    Python's default for an object without [__bool__] and [__len__];
    the truth value of other objects is not modelled. *)
Definition truthy (v : pyval) : bool :=
  match v with
  | VNone => false
  | VBool b => b
  | VInt z => negb (Z.eqb z 0)
  | VStr s => Str.nonempty s
  | VObj _ => true
  end.


(** An entry of a class's own [__dict__] that is no dictionary: a
    property whose getter is [return self[item]], as [id] (lines
    91-93), or anything else (a method, a constant). *)
Inductive member : Type :=
| ItemProperty (item : string)
| Plain (v : pyval).

(** A class: the dictionary-valued entries of its own [__dict__]
    (such as [__default_values__]) and its other entries. *)
Record klass : Type := Klass {
  cls_name : string;
  cls_dict : gmap string (gmap string pyval);
  cls_members : gmap string member;
}.

(** An instance: [self.__class__.__mro__], most-derived class first,
    and [self.__dict__]. *)
Record instance : Type := Instance {
  inst_mro : list klass;
  inst_dict : gmap string pyval;
}.

(** [d.setdefault(k, v)], for its effect on [d] *)
Definition setdefault {A : Type} (k : string) (v : A) (d : gmap string A)
  : gmap string A :=
  match d !! k with
  | Some _ => d
  | None => <[k := v]> d
  end.

(** [get_class_attr(name, include_parents, attr_type)] for an
    [attr_type] other than ["list"], threading [data] along
    [cls.__mro__]. *)
Fixpoint get_class_attr (mro : list klass) (name : string)
    (include_parents : bool) (data : gmap string pyval) : gmap string pyval :=
  match mro with
  | [] => data
  | kls :: rest =>
      let data :=
        match cls_dict kls !! name with
        | Some d => map_fold (fun k v data => setdefault k v data) data d
        | None => data
        end in
      if include_parents then get_class_attr rest name include_parents data
      else data
  end.

(** [cls.get_class_attr("__default_values__", attr_type={})] *)
Definition get_all_defaults (mro : list klass) : gmap string pyval :=
  get_class_attr mro "__default_values__" true ∅.

(** The lookup of [key] in [kls.__dict__.get(name, {})]. *)
Definition own_attr (kls : klass) (name key : string) : option pyval :=
  default ∅ (cls_dict kls !! name) !! key.

(** What [kls] itself declares for [key]: the lookup of [key] in
    [kls.__dict__.get("__default_values__", {})]. *)
Definition own_default (kls : klass) (key : string) : option pyval :=
  own_attr kls "__default_values__" key.

(** [for kls in self.__class__.__mro__: ...; return None].  Inside the
    [if], [kls] owns [__default_values__], so [kls.__default_values__]
    is the entry of its own [__dict__]. *)
Fixpoint mro_default (mro : list klass) (key : string) : pyval :=
  match mro with
  | [] => VNone
  | kls :: rest =>
      match own_default kls key with
      | Some v => v
      | None => mro_default rest key
      end
  end.

(** Methods take [self] and give it back with their result. *)
Definition method (A : Type) : Type := instance -> A * instance.

Definition _get_default (key : string) : method pyval :=
  fun self => (mro_default (inst_mro self) key, self).

(** [self.__dict__.get(key, self._get_default(key))]: the default is
    evaluated first, as an argument. *)
Definition __getitem__ (key : string) : method pyval :=
  fun self =>
    let '(dflt, self) := _get_default key self in
    (default dflt (inst_dict self !! key), self).

(** [self.__dict__[key] = value] *)
Definition __setitem__ (key : string) (value : pyval) : method unit :=
  fun self =>
    (tt, {| inst_mro := inst_mro self;
            inst_dict := <[key := value]> (inst_dict self) |}).

(** Called by Python when the normal attribute lookup fails. *)
Definition __getattr__ (key : string) : method pyval :=
  fun self => _get_default key self.

(** What the lookup of a name along the MRO finds in a class. *)
Inductive class_entry : Type :=
| EntryProperty (item : string)
| EntryPlain (v : pyval)
| EntryDict (d : gmap string pyval).

(** [kls.__dict__.get(key)] *)
Definition own_entry (kls : klass) (key : string) : option class_entry :=
  match cls_members kls !! key with
  | Some (ItemProperty item) => Some (EntryProperty item)
  | Some (Plain v) => Some (EntryPlain v)
  | None =>
      match cls_dict kls !! key with
      | Some d => Some (EntryDict d)
      | None => None
      end
  end.

(** The entry of the first class of the MRO that has [key]. *)
Fixpoint type_lookup (mro : list klass) (key : string) : option class_entry :=
  match mro with
  | [] => None
  | kls :: rest =>
      match own_entry kls key with
      | Some e => Some e
      | None => type_lookup rest key
      end
  end.

(** What an attribute access gives: a value, or a dictionary of the
    class. *)
Inductive attr_value : Type :=
| AVal (v : pyval)
| ADict (d : gmap string pyval).

(** Python's attribute access [self.key]: a property of the class
    first, then the instance dictionary, then any other entry of the
    class, and [__getattr__] when all of them fail. *)
Definition attribute (key : string) : method attr_value :=
  fun self =>
    let entry := type_lookup (inst_mro self) key in
    match entry with
    | Some (EntryProperty item) =>
        let '(v, self) := __getitem__ item self in (AVal v, self)
    | _ =>
        match inst_dict self !! key with
        | Some v => (AVal v, self)
        | None =>
            match entry with
            | Some (EntryPlain v) => (AVal v, self)
            | Some (EntryDict d) => (ADict d, self)
            | _ => let '(v, self) := __getattr__ key self in (AVal v, self)
            end
        end
    end.

(** The three read operations, for statements about all of them. *)
Inductive read_op : Type :=
| GetAttr (key : string)
| GetItem (key : string)
| GetDefault (key : string).

Definition run_read (op : read_op) : method pyval :=
  match op with
  | GetAttr key => __getattr__ key
  | GetItem key => __getitem__ key
  | GetDefault key => _get_default key
  end.

(** A sequence of reads, one after the other on the same instance. *)
Fixpoint run_reads (ops : list read_op) : method (list pyval) :=
  fun self =>
    match ops with
    | [] => ([], self)
    | op :: rest =>
        let '(v, self) := run_read op self in
        let '(vs, self) := run_reads rest self in
        (v :: vs, self)
    end.

(** ** The error-capturing write wrapper *)

(** An exception object, an instance of [Exception]: the name of its
    class and [str(ex)]. *)
Record exc : Type := Exc {
  exc_class : string;
  exc_str : string;
}.

(** How a call ends: it returns, it raises an exception, or it is left
    by one of the exits that are no instance of [Exception]
    ([KeyboardInterrupt], [SystemExit], [GeneratorExit]). *)
Inductive outcome : Type :=
| Returned (v : pyval)
| Raised (ex : exc)
| Exited (name : string).

Abbreviation kwargs := (gmap string pyval).

(** What the wrapper sees of pymongo, in the current database state. *)
Record driver : Type := Driver {
  (* the call of [getattr(cls.get_collection(), name)] on the arguments *)
  coll_method : string -> list pyval -> kwargs -> outcome;
  (* [cls.get_client().start_session()] entered: the session *)
  start_session : outcome;
  (* what [with sess.start_transaction():] and the end of the session
     make of the outcome of their body *)
  in_transaction : pyval -> outcome -> outcome;
}.

(** [cls.__use_transaction__] and [cls.__support_transaction__], as
    truth values. *)
Record model_class : Type := ModelClass {
  use_transaction : bool;
  support_transaction : bool;
}.

(** The [action] argument: the name of a collection method, or a
    callable. *)
Inductive action : Type :=
| ByName (name : string)
| Callable (f : list pyval -> kwargs -> outcome).

Section wrapper.
Variable drv : driver.
Variable cls : model_class.

Definition with_session (act : action) (args : list pyval) (kw : kwargs)
  : outcome :=
  let call :=
    match act with
    | ByName name => coll_method drv name
    | Callable f => f
    end in
  let no_session := kw !! "no_session" in
  let kw := delete "no_session" kw in
  match no_session with
  | Some (VBool true) => call args kw
  | _ =>
      if use_transaction cls && support_transaction cls then
        match start_session drv with
        | Returned sess =>
            in_transaction drv sess
              (call args (setdefault "session" sess kw))
        | Raised ex => Raised ex
        | Exited name => Exited name
        end
      else call args kw
  end.

Definition _run (act : action) (args : list pyval) (kw : kwargs) : outcome :=
  with_session act args kw.

Definition capture_errors (act : action) (args : list pyval) (kw : kwargs)
  : outcome :=
  let flag := default (VBool true) (kw !! "capture_errors") in
  let kw := delete "capture_errors" kw in
  if truthy flag then
    match _run act args kw with
    | Returned v => Returned v
    | Raised ex => Returned (VStr (exc_str ex))   (* [except Exception] *)
    | Exited name => Exited name
    end
  else _run act args kw.

Definition insert_one (doc : pyval) (kw : kwargs) : outcome :=
  capture_errors (ByName "insert_one") [doc] kw.
Definition insert_many (args : list pyval) (kw : kwargs) : outcome :=
  capture_errors (ByName "insert_many") args kw.
Definition update_one (args : list pyval) (kw : kwargs) : outcome :=
  capture_errors (ByName "update_one") args kw.
Definition update_many (args : list pyval) (kw : kwargs) : outcome :=
  capture_errors (ByName "update_many") args kw.
Definition replace_one (args : list pyval) (kw : kwargs) : outcome :=
  capture_errors (ByName "replace_one") args kw.
Definition delete_one (filter : pyval) (kw : kwargs) : outcome :=
  capture_errors (ByName "delete_one") [filter] kw.
Definition delete_many (filter : pyval) (kw : kwargs) : outcome :=
  capture_errors (ByName "delete_many") [filter] kw.
Definition bulk_write (requests : pyval) (kw : kwargs) : outcome :=
  capture_errors (ByName "bulk_write") [requests] kw.
End wrapper.

(** A call of one of the eight write operations, with its positional
    arguments. *)
Inductive write_call : Type :=
| InsertOne (doc : pyval)
| InsertMany (args : list pyval)
| UpdateOne (args : list pyval)
| UpdateMany (args : list pyval)
| ReplaceOne (args : list pyval)
| DeleteOne (filter : pyval)
| DeleteMany (filter : pyval)
| BulkWrite (requests : pyval).

Definition write_name (c : write_call) : string :=
  match c with
  | InsertOne _ => "insert_one"
  | InsertMany _ => "insert_many"
  | UpdateOne _ => "update_one"
  | UpdateMany _ => "update_many"
  | ReplaceOne _ => "replace_one"
  | DeleteOne _ => "delete_one"
  | DeleteMany _ => "delete_many"
  | BulkWrite _ => "bulk_write"
  end.

Definition write_args (c : write_call) : list pyval :=
  match c with
  | InsertOne doc => [doc]
  | InsertMany args | UpdateOne args | UpdateMany args | ReplaceOne args => args
  | DeleteOne filter | DeleteMany filter => [filter]
  | BulkWrite requests => [requests]
  end.

Definition write (drv : driver) (cls : model_class) (c : write_call)
    (kw : kwargs) : outcome :=
  match c with
  | InsertOne doc => insert_one drv cls doc kw
  | InsertMany args => insert_many drv cls args kw
  | UpdateOne args => update_one drv cls args kw
  | UpdateMany args => update_many drv cls args kw
  | ReplaceOne args => replace_one drv cls args kw
  | DeleteOne filter => delete_one drv cls filter kw
  | DeleteMany filter => delete_many drv cls filter kw
  | BulkWrite requests => bulk_write drv cls requests kw
  end.


(** ** Inputs of the examples *)

Module Ex.

(** [{"email": "x@y.com", "tenant_id": "t1"}] *)
Definition candidate : gmap string pyval :=
  <["email" := VStr "x@y.com"]> (<["tenant_id" := VStr "t1"]> ∅).

(** [{"other": 1}] *)
Definition other_doc : gmap string pyval := <["other" := VInt 1]> ∅.

(** [object]: no [__default_values__] of its own. *)
Definition object : klass := Klass "object" ∅ ∅.

(** [class Base: __default_values__ = {"status": "new", "kind": "base"}] *)
Definition Base : klass :=
  Klass "Base"
    (<["__default_values__" :=
         <["status" := VStr "new"]> (<["kind" := VStr "base"]> ∅)]> ∅) ∅.

(** [class Mid(Base): __default_values__ = {"kind": "mid", "level": 2}] *)
Definition Mid : klass :=
  Klass "Mid"
    (<["__default_values__" :=
         <["kind" := VStr "mid"]> (<["level" := VInt 2]> ∅)]> ∅) ∅.

(** [class Leaf(Mid): __default_values__ = {"name": "leaf"}] *)
Definition Leaf : klass :=
  Klass "Leaf" (<["__default_values__" := <["name" := VStr "leaf"]> ∅]> ∅) ∅.

(** [class Plain(Base): pass] *)
Definition Plain : klass := Klass "Plain" ∅ ∅.

(** [Leaf.__mro__] *)
Definition Leaf_mro : list klass := [Leaf; Mid; Base; object].

(** [Plain.__mro__] *)
Definition Plain_mro : list klass := [Plain; Base; object].

(** An instance of [Leaf] made by [Leaf(color="red")]. *)
Definition leaf : instance := Instance Leaf_mro (<["color" := VStr "red"]> ∅).

(** pymongo's [DuplicateKeyError]. *)
Definition duplicate_key : exc :=
  Exc "DuplicateKeyError" "E11000 duplicate key error".

(** A collection in which every insert of one document hits a
    duplicate key and everything else succeeds. *)
Definition dup_driver : driver :=
  Driver
    (fun name args kw =>
       if String.eqb name "insert_one" then Raised duplicate_key
       else Returned (VObj "result"))
    (Returned (VObj "session"))
    (fun sess out => out).

Definition plain_class : model_class := ModelClass false false.

End Ex.

(** ** More of the module: is_unique *)

Section is_unique.
Context {V : Type}.

(** [BaseMixin.get_uniq_spec(cls, fields, doc)]: an empty [fields]
    falls back on the [__unique_fields__] of the class's own
    [__dict__]; [own_unique_fields] is
    [cls.__dict__.get("__unique_fields__")]. *)
Definition cls_get_uniq_spec (own_unique_fields : option (list string))
    (fields : list string) (doc : gmap string V) : option (or_filter V) :=
  get_uniq_spec
    (match fields with
     | [] => default [] own_unique_fields
     | _ => fields
     end) doc.

(** The filter [is_unique] queries with: [{"$or": specs}] and, when
    an [id] is given, [{"_id": {"$ne": id}}] beside it. *)
Record uniq_query : Type := UniqQuery {
  query_or : list (gmap string V);
  query_id_ne : option V;
}.

(** How [cls.find_one(spec, as_raw=True)] ends: a document, [None],
    or an exception of the driver. *)
Inductive found : Type :=
| FoundDoc (d : gmap string V)
| FoundNone
| FindRaised (ex : exc).

(** How [is_unique] ends: its value and the state of [dbdoc], or the
    exception of [find_one]. *)
Inductive uniq_end : Type :=
| UniqReturned (unique : bool) (dbdoc : gmap string V)
| UniqRaised (ex : exc).

(** [is_unique(cls, fields, doc, id, dbdoc)], with [as_raw] left to
    its default.  [id_truthy] is the truth value of an id. *)
Definition is_unique (id_truthy : V -> bool) (find_one : uniq_query -> found)
    (own_unique_fields : option (list string))
    (fields : list string) (doc : gmap string V) (id : option V)
    (dbdoc : gmap string V) : uniq_end :=
  match cls_get_uniq_spec own_unique_fields fields doc with
  | Some (Or specs) =>
      let id_ne :=
        match id with
        | Some i => if id_truthy i then Some i else None
        | None => None
        end in
      match find_one (UniqQuery specs id_ne) with
      | FoundDoc d =>
          if dict_truthy d then UniqReturned false (d ∪ dbdoc)
          else UniqReturned true dbdoc
      | FoundNone => UniqReturned true dbdoc
      | FindRaised ex => UniqRaised ex
      end
  | None => UniqReturned true dbdoc
  end.
End is_unique.

(** ** More of the module: to_dict and __init__ *)

(** [to_dict(self, include_defaults, deep, extras, excludes, onlys)]:
    on a copy of [self.__dict__], [setdefault] for each class default,
    [update] with [extras], then the comprehension over [onlys] or,
    when [onlys] is empty, over [excludes].  Values are immutable here,
    so a deep and a shallow copy are the same. *)
Definition to_dict (include_defaults : bool) (extras : gmap string pyval)
    (excludes onlys : list string) : method (gmap string pyval) :=
  fun self =>
    let d := inst_dict self in
    let d :=
      if include_defaults
      then map_fold (fun k v d => setdefault k v d) d
             (get_all_defaults (inst_mro self))
      else d in
    let d := extras ∪ d in
    (match onlys with
     | [] => filter (fun kv => kv.1 ∉ excludes) d
     | _ => filter (fun kv => kv.1 ∈ onlys) d
     end, self).

(** [BaseModel.__init__(self, **kwargs)]: [self.__dict__.update(kwargs)]
    on the fresh instance of a class with the given MRO. *)
Definition __init__ (mro : list klass) (kw : gmap string pyval) : instance :=
  Instance mro (kw ∪ ∅).

(** ** More of the module: get_page_args *)

(** How [get_page_args] ends: the triple it returns, or the exception
    of [int(page)] or [int(per_page)]. *)
Inductive page_end : Type :=
| PageArgs (page per_page skip : Z)
| PageRaised.

Section page_args.
Context {V : Type}.
(** The keyword values are any Python values: [value_truthy v] is
    [bool(v)] and [value_int v] is [int(v)], [None] when it raises. *)
Variable value_truthy : V -> bool.
Variable value_int : V -> option Z.

(** What [page] and [per_page] hold before the conversion: a keyword
    value as it came, or the integer of the request. *)
Inductive page_value : Type :=
| Keyword (v : V)
| Requested (z : Z).

(** [bool(page)] *)
Definition page_truthy (p : page_value) : bool :=
  match p with
  | Keyword v => value_truthy v
  | Requested z => negb (Z.eqb z 0)
  end.

(** [int(page)] *)
Definition page_int (p : page_value) : option Z :=
  match p with
  | Keyword v => value_int v
  | Requested z => Some z
  end.

(** [page = kwargs.get(name); if not page: page = request.args.get(name,
    dflt, type=int)] *)
Definition page_or_request (request_get : string -> Z -> Z)
    (kw : gmap string V) (name : string) (dflt : Z) : page_value :=
  match kw !! name with
  | Some v => if value_truthy v then Keyword v else Requested (request_get name dflt)
  | None => Requested (request_get name dflt)
  end.

(** [get_page_args(cls, page_name, per_page_name, **kwargs)].
    [request_get name dflt] is [request.args.get(name, dflt, type=int)],
    an integer. *)
Definition get_page_args (request_get : string -> Z -> Z)
    (page_name per_page_name : option string) (kw : gmap string V)
  : page_end :=
  match page_name, per_page_name with
  | Some pn, Some ppn =>
      if Str.nonempty pn && Str.nonempty ppn then
        let page := page_or_request request_get kw pn 1%Z in
        let per_page := page_or_request request_get kw ppn 10%Z in
        if page_truthy page && page_truthy per_page then
          match page_int page with
          | Some p =>
              match page_int per_page with
              | Some n => PageArgs p n (n * (p - 1))%Z
              | None => PageRaised
              end
          | None => PageRaised
          end
        else PageArgs 0 0 0
      else PageArgs 0 0 0
  | _, _ => PageArgs 0 0 0
  end.
End page_args.

(** ** More of the module: clean_for_dirty and get_fresh *)

Section dirty.
Context {V : Type}.
(** [py_eq a b] is [a == b]; [py_none] is [None]. *)
Variable py_eq : V -> V -> bool.
Variable py_none : V.

(** The loop of [clean_for_dirty], threading [cleaned]; the bare
    [return] at ["_id"] gives [None]. *)
Fixpoint clean_loop (self_dict doc : gmap string V) (ks : list string)
    (cleaned : gmap string V) : option (gmap string V) :=
  match ks with
  | [] => Some cleaned
  | k :: rest =>
      if String.eqb k "_id" then None
      else
        clean_loop self_dict doc rest
          (match doc !! k with
           | Some v =>
               if negb (py_eq (default py_none (self_dict !! k)) v)
               then <[k := v]> cleaned
               else cleaned
           | None => cleaned
           end)
  end.

(** [clean_for_dirty(self, doc, keys)]: [keys or list(doc.keys())]. *)
Definition clean_for_dirty (self_dict doc : gmap string V)
    (keys : list string) : option (gmap string V) :=
  clean_loop self_dict doc
    (match keys with
     | [] => (map_to_list doc).*1
     | _ => keys
     end) ∅.

(** [k not in old_dict or v != old_dict[k]] *)
Definition is_fresh (old_dict : gmap string V) (k : string) (v : V) : bool :=
  match old_dict !! k with
  | None => true
  | Some o => negb (py_eq v o)
  end.

(** [get_fresh(new_dict, old_dict)] *)
Definition get_fresh (new_dict old_dict : gmap string V) : gmap string V :=
  filter (fun kv => is_fresh old_dict kv.1 kv.2 = true) new_dict.
End dirty.

(** ** More of the module: create_index *)

(** How [create_index] ends: it returns [None], [get_sort] raised, or
    a call of the driver raised. *)
Inductive index_end : Type :=
| IndexDone
| IndexKeysRaised (e : exn)
| IndexDriverRaised (ex : exc).

(** [for key in keys: cls._run(func, key, **kwargs)], with the calls
    made so far.  [run key] is the exception of
    [cls._run(func, key, **kwargs)], if it raises; the collection
    itself is taken to be there. *)
Fixpoint create_loop (run : sort_spec -> option exc) (keys : list sort_spec)
  : list sort_spec * index_end :=
  match keys with
  | [] => ([], IndexDone)
  | key :: rest =>
      match run key with
      | Some ex => ([key], IndexDriverRaised ex)
      | None =>
          let '(calls, e) := create_loop run rest in (key :: calls, e)
      end
  end.

(** [create_index(cls, keys, **kwargs)]: the keys the driver's
    [create_index] is called with, in order, and the end.  A list whose
    first element is a list is a list of keys; any other non-empty
    list is one key. *)
Definition create_index (run : sort_spec -> option exc) (keys : sort_arg)
  : list sort_spec * index_end :=
  match get_sort keys true with
  | Raise e => ([], IndexKeysRaised e)
  | Ok RetNone => ([], IndexDone)
  | Ok (RetList []) | Ok (RetOne []) | Ok (RetMany []) => ([], IndexDone)
  | Ok (RetList key) | Ok (RetOne key) => create_loop run [key]
  | Ok (RetMany keys) => create_loop run keys
  end.

(** ** Inputs of further examples *)

Module Ex2.

(** [BaseMixin]: the property [id] and some of its methods. *)
Definition BaseMixin : klass :=
  Klass "BaseMixin" ∅
    (<["id" := ItemProperty "_id"]>
     (<["save" := Plain (VObj "function save")]>
      (<["to_dict" := Plain (VObj "function to_dict")]> ∅))).

(** [BaseModel(BaseMixin)]: [__default_values__ = {}] and constants. *)
Definition BaseModel : klass :=
  Klass "BaseModel" (<["__default_values__" := ∅]> ∅)
    (<["__collection__" := Plain VNone]>
     (<["__use_transaction__" := Plain (VBool false)]> ∅)).

(** [class Doc(BaseModel): __default_values__ = {"status": "new"}] *)
Definition Doc : klass :=
  Klass "Doc" (<["__default_values__" := <["status" := VStr "new"]> ∅]> ∅) ∅.

(** [Doc.__mro__] *)
Definition Model_mro : list klass := [Doc; BaseModel; BaseMixin; Ex.object].

(** [Doc(_id=7, name="ann")] *)
Definition saved : instance :=
  Instance Model_mro (<["_id" := VInt 7]> (<["name" := VStr "ann"]> ∅)).

(** A collection that holds [{"email": "x@y.com", "_id": 7}] and
    answers a query whose first sub-filter asks for that email. *)
Definition stored : gmap string pyval :=
  <["email" := VStr "x@y.com"]> (<["_id" := VInt 7]> ∅).

Definition find_stored (q : uniq_query (V := pyval)) : found :=
  match query_or q with
  | spec :: _ =>
      match spec !! "email" with
      | Some (VStr "x@y.com") => FoundDoc stored
      | _ => FoundNone
      end
  | [] => FoundNone
  end.

(** Keyword values for the page arguments: an integer, the float
    [0.5], or an object [int()] refuses. *)
Inductive pagearg : Type :=
| PInt (z : Z)
| PHalf
| PBad.

(** [bool(v)] *)
Definition pagearg_truthy (v : pagearg) : bool :=
  match v with
  | PInt z => negb (Z.eqb z 0)
  | PHalf => true
  | PBad => true
  end.

(** [int(v)]: [int(0.5)] is [0] *)
Definition pagearg_int (v : pagearg) : option Z :=
  match v with
  | PInt z => Some z
  | PHalf => Some 0%Z
  | PBad => None
  end.

(** [request.args] of [?page=3&per_page=20] *)
Definition request_page3 (name : string) (dflt : Z) : Z :=
  if String.eqb name "page" then 3%Z
  else if String.eqb name "per_page" then 20%Z
  else dflt.

(** A driver whose [create_index] always succeeds. *)
Definition run_ok (key : sort_spec) : option exc := None.

(** A driver whose [create_index] refuses a key that starts with the
    field [loc]. *)
Definition run_no_loc (key : sort_spec) : option exc :=
  match key with
  | (field, _) :: _ =>
      if String.eqb field "loc"
      then Some (Exc "OperationFailure" "bad index key")
      else None
  | [] => None
  end.

(** [a == b] on the values of the model: numbers and booleans compare
    as numbers, objects by what they are. *)
Definition as_number (v : pyval) : option Z :=
  match v with
  | VBool b => Some (if b then 1 else 0)%Z
  | VInt z => Some z
  | _ => None
  end.

Definition pyval_eq (a b : pyval) : bool :=
  match as_number a, as_number b with
  | Some x, Some y => Z.eqb x y
  | _, _ =>
      match a, b with
      | VNone, VNone => true
      | VStr s, VStr t => String.eqb s t
      | VObj r, VObj t => String.eqb r t
      | _, _ => false
      end
  end.

(** The instance has [{"name": "ann", "age": 30}]; the form sends
    [{"name": "ann", "age": 31, "city": "Oslo"}]. *)
Definition have : gmap string pyval :=
  <["name" := VStr "ann"]> (<["age" := VInt 30]> ∅).

Definition sent : gmap string pyval :=
  <["name" := VStr "ann"]> (<["age" := VInt 31]> (<["city" := VStr "Oslo"]> ∅)).

End Ex2.

(** * Properties *)

(** ** Strings *)

Section strings.
Import Str.

Lemma split_not_nil sep s : split sep s <> [].
Proof.
  destruct s as [|c s]; simpl; [discriminate|].
  destruct (Ascii.eqb c sep); [discriminate|].
  destruct (split sep s); discriminate.
Qed.

Lemma split_cons_ne sep c s :
  Ascii.eqb c sep = false ->
  exists w ws, split sep s = w :: ws /\ split sep (String c s) = String c w :: ws.
Proof.
  intros Hc. simpl. rewrite Hc.
  destruct (split sep s) as [|w ws] eqn:E.
  - now apply split_not_nil in E.
  - eauto.
Qed.

Lemma rstrip_cons_nonspace c s :
  isspace c = false -> rstrip (String c s) = String c (rstrip s).
Proof. intros Hc. simpl. rewrite Hc. now destruct (rstrip s). Qed.

Lemma rstrip_cons_space c s :
  isspace c = true ->
  rstrip (String c s) =
    match rstrip s with EmptyString => EmptyString | r => String c r end.
Proof. intros Hc. simpl. now rewrite Hc. Qed.

Lemma lstrip_cons_space c s : isspace c = true -> lstrip (String c s) = lstrip s.
Proof. intros Hc. simpl. now rewrite Hc. Qed.

Lemma lstrip_cons_nonspace c s :
  isspace c = false -> lstrip (String c s) = String c s.
Proof. intros Hc. simpl. now rewrite Hc. Qed.

(** Trimming on the left and on the right commute. *)
Lemma rstrip_lstrip s : rstrip (lstrip s) = lstrip (rstrip s).
Proof.
  induction s as [|c s IH]; [reflexivity|].
  destruct (isspace c) eqn:Hc.
  - rewrite lstrip_cons_space, rstrip_cons_space, IH by assumption.
    destruct (rstrip s); [reflexivity|].
    symmetry. now apply lstrip_cons_space.
  - rewrite lstrip_cons_nonspace, rstrip_cons_nonspace by assumption.
    now rewrite lstrip_cons_nonspace.
Qed.

Lemma eqb_sep_space c sep :
  isspace sep = false -> isspace c = true -> Ascii.eqb c sep = false.
Proof.
  intros Hs Hc. destruct (Ascii.eqb_spec c sep); [congruence|reflexivity].
Qed.

(** [lstrip] only touches the first piece. *)
Lemma split_lstrip sep s :
  isspace sep = false ->
  map lstrip (split sep (lstrip s)) = map lstrip (split sep s).
Proof.
  intros Hs. induction s as [|c s IH]; [reflexivity|].
  destruct (isspace c) eqn:Hc.
  - rewrite lstrip_cons_space, IH by assumption.
    destruct (split_cons_ne sep c s) as (w & ws & E1 & E2);
      [now apply eqb_sep_space|].
    rewrite E1, E2. simpl. now rewrite Hc.
  - now rewrite lstrip_cons_nonspace.
Qed.

(** [rstrip] only touches the last piece. *)
Lemma split_rstrip sep s :
  isspace sep = false ->
  map rstrip (split sep (rstrip s)) = map rstrip (split sep s).
Proof.
  intros Hs. induction s as [|c s IH]; [reflexivity|].
  destruct (isspace c) eqn:Hc.
  - destruct (split_cons_ne sep c s) as (w & ws & E1 & E2);
      [now apply eqb_sep_space|].
    rewrite rstrip_cons_space, E2 by assumption.
    rewrite E1 in IH.
    destruct (rstrip s) as [|c' r] eqn:Er.
    + simpl in IH. injection IH as IH1 IH2.
      destruct ws; [|discriminate].
      change (map rstrip [String c w]) with [rstrip (String c w)].
      rewrite rstrip_cons_space, <- IH1 by assumption. reflexivity.
    + destruct (split_cons_ne sep c (String c' r)) as (w' & ws' & E1' & E2');
        [now apply eqb_sep_space|].
      rewrite E2'. rewrite E1' in IH. simpl in IH. injection IH as IH1 IH2.
      change (rstrip (String c w') :: map rstrip ws'
              = rstrip (String c w) :: map rstrip ws).
      rewrite !rstrip_cons_space, IH1, IH2 by assumption. reflexivity.
  - rewrite rstrip_cons_nonspace by assumption.
    simpl split. destruct (Ascii.eqb c sep).
    + simpl. now rewrite IH.
    + destruct (split sep (rstrip s)) as [|w ws] eqn:E1;
        [now apply split_not_nil in E1|].
      destruct (split sep s) as [|w' ws'] eqn:E2;
        [now apply split_not_nil in E2|].
      simpl in IH. injection IH as IH1 IH2.
      change (rstrip (String c w) :: map rstrip ws
              = rstrip (String c w') :: map rstrip ws').
      rewrite !rstrip_cons_nonspace, IH1, IH2 by assumption. reflexivity.
Qed.

(** Trimming the input before splitting it does not change the
    trimmed pieces (the separators [;] and [,] are no whitespace). *)
Lemma split_strip sep s :
  isspace sep = false ->
  map strip (split sep (strip s)) = map strip (split sep s).
Proof.
  intros Hs. unfold strip at 2.
  transitivity (map strip (split sep (lstrip s))).
  - transitivity (map lstrip (map rstrip (split sep (rstrip (lstrip s))))).
    + rewrite map_map. apply map_ext. intros x. unfold strip.
      apply rstrip_lstrip.
    + rewrite split_rstrip by assumption.
      rewrite map_map. apply map_ext. intros x. unfold strip.
      symmetry. apply rstrip_lstrip.
  - transitivity (map rstrip (map lstrip (split sep (lstrip s)))).
    + now rewrite map_map.
    + rewrite split_lstrip by assumption. now rewrite map_map.
Qed.

End strings.

(** ** Tokens of an item *)

Section tokens.
Import Str.

Lemma append_cons c (u v : string) : String c u +:+ v = String c (u +:+ v).
Proof. reflexivity. Qed.

Lemma append_empty_l (v : string) : EmptyString +:+ v = v.
Proof. reflexivity. Qed.

Lemma contains_app c u v : contains c (u +:+ v) = contains c u || contains c v.
Proof.
  induction u as [|a u IH]; [reflexivity|].
  rewrite append_cons. simpl. rewrite IH. now rewrite orb_assoc.
Qed.

Lemma replace_2sp_cons_nonspace c s :
  Ascii.eqb c " " = false -> replace_2sp (String c s) = String c (replace_2sp s).
Proof. intros Hc. destruct s; [reflexivity|]. simpl. now rewrite Hc. Qed.

Lemma replace_2sp_space_nonspace c s :
  Ascii.eqb c " " = false ->
  replace_2sp (String " " (String c s)) = String " " (replace_2sp (String c s)).
Proof. intros Hc. cbn [replace_2sp]. now rewrite Hc, andb_false_r. Qed.

Lemma replace_2sp_two_spaces s :
  replace_2sp (String " " (String " " s)) = String " " (replace_2sp s).
Proof. reflexivity. Qed.

Lemma replace_2sp_space_head s :
  exists w, replace_2sp (String " " s) = String " " w.
Proof.
  destruct s as [|c s]; [now exists EmptyString|].
  cbn [replace_2sp]. destruct (Ascii.eqb " " " " && Ascii.eqb c " "); eauto.
Qed.

(** A stretch without spaces passes through [replace] unchanged. *)
Lemma replace_2sp_app_nospace u v :
  contains " " u = false -> replace_2sp (u +:+ v) = u +:+ replace_2sp v.
Proof.
  induction u as [|c u IH]; [reflexivity|].
  simpl contains. intros H. apply orb_false_elim in H as [Hc Hu].
  rewrite append_cons, replace_2sp_cons_nonspace by assumption.
  now rewrite IH.
Qed.

Lemma split_app_nosep sep u v :
  contains sep u = false ->
  split sep (u +:+ v) =
    match split sep v with
    | w :: ws => (u +:+ w) :: ws
    | [] => [u]
    end.
Proof.
  induction u as [|c u IH]; intros H.
  - rewrite append_empty_l.
    destruct (split sep v) eqn:E; [now apply split_not_nil in E|reflexivity].
  - simpl in H. apply orb_false_elim in H as [Hc Hu].
    rewrite append_cons. simpl split. rewrite Hc, IH by assumption.
    destruct (split sep v) eqn:E; [now apply split_not_nil in E|reflexivity].
Qed.

Lemma append_empty_r (u : string) : u +:+ EmptyString = u.
Proof.
  induction u as [|c u IH]; [reflexivity|]. now rewrite append_cons, IH.
Qed.

Lemma split_nosep sep u : contains sep u = false -> split sep u = [u].
Proof.
  intros H. rewrite <- (append_empty_r u) at 1.
  rewrite split_app_nosep by assumption. simpl. now rewrite append_empty_r.
Qed.

Lemma split_app_sep sep u v :
  contains sep u = false -> split sep (u +:+ String sep v) = u :: split sep v.
Proof.
  intros H. rewrite split_app_nosep by assumption.
  simpl. rewrite Ascii.eqb_refl. now rewrite append_empty_r.
Qed.

(** [replace] keeps at least one space of an item that has one. *)
Lemma contains_replace_2sp s :
  contains " " s = true -> contains " " (replace_2sp s) = true.
Proof.
  enough (H : (contains " " s = true -> contains " " (replace_2sp s) = true)
              /\ forall c, contains " " (String c s) = true ->
                           contains " " (replace_2sp (String c s)) = true)
    by apply H.
  induction s as [|a s [IH1 IH2]].
  - split; [discriminate|]. intros c H. exact H.
  - split; [apply IH2|]. intros c H.
    cbn [replace_2sp].
    destruct (Ascii.eqb c " " && Ascii.eqb a " ") eqn:E; [reflexivity|].
    change (Ascii.eqb c " " || contains " " (replace_2sp (String a s)) = true).
    change (Ascii.eqb c " " || contains " " (String a s) = true) in H.
    destruct (Ascii.eqb c " "); [reflexivity|].
    simpl orb in *. now apply IH2.
Qed.

Lemma split_two_pieces sep s :
  contains sep s = true -> exists a b l, split sep s = a :: b :: l.
Proof.
  induction s as [|c s IH]; [discriminate|].
  simpl. destruct (Ascii.eqb c sep) eqn:Hc; simpl.
  - intros _. destruct (split sep s) as [|b l] eqn:E;
      [now apply split_not_nil in E|]. eauto.
  - intros H. destruct (IH H) as (a & b & l & ->). eauto.
Qed.

End tokens.

(** ** The item parser *)

Lemma subscript_cases names k :
  (exists d, names !! k = Some d /\ subscript names k = Ok d)
  \/ (names !! k = None /\ subscript names k = Raise (KeyError k)).
Proof. unfold subscript. destruct (names !! k); eauto. Qed.

(** The slice [[:2]] of the pieces of an item with a space always has
    two elements: the unpacking into [field, _sort] never fails. *)
Lemma parse_item_unpacks item :
  Str.contains " " item = true ->
  exists field _sort,
    take 2 (Str.split " " (Str.replace_2sp item)) = [field; _sort].
Proof.
  intros H. apply contains_replace_2sp in H.
  destruct (split_two_pieces _ _ H) as (a & b & l & ->). now exists a, b.
Qed.

Lemma parse_item_no_ValueError names item :
  parse_item names item <> Raise ValueError.
Proof.
  unfold parse_item. destruct (Str.contains " " item) eqn:H.
  - destruct (parse_item_unpacks item H) as (f & t & ->).
    unfold lookup_direction.
    destruct (subscript_cases names (Str.lower t)) as [(d & _ & ->)|[_ ->]];
      discriminate.
  - destruct (subscript_cases names "asc") as [(d & _ & ->)|[_ ->]];
      discriminate.
Qed.

(** An item made of a field, one or two spaces, a token and, possibly,
    more tokens after a space: the first two tokens are used. *)
Lemma parse_item_tokens names field sep tok rest :
  Str.contains " " field = false ->
  Str.contains " " tok = false -> tok <> "" ->
  sep = " " \/ sep = "  " ->
  rest = "" \/ (exists r, rest = String " " r) ->
  parse_item names (field +:+ sep +:+ tok +:+ rest)
  = (d ← lookup_direction names tok; mret (field, d)).
Proof.
  intros Hf Ht Hne Hsep Hrest.
  assert (Hitem : Str.contains " " (field +:+ sep +:+ tok +:+ rest) = true).
  { rewrite contains_app, (contains_app _ sep).
    destruct Hsep as [-> | ->]; simpl; now rewrite orb_true_r. }
  assert (Hrep : exists R, (R = "" \/ exists w, R = String " " w) /\
            Str.replace_2sp (field +:+ sep +:+ tok +:+ rest)
            = field +:+ String " " (tok +:+ R)).
  { exists (Str.replace_2sp rest). split.
    - destruct Hrest as [-> | [r ->]]; [now left|right].
      apply replace_2sp_space_head.
    - rewrite replace_2sp_app_nospace by assumption. f_equal.
      destruct tok as [|c tok]; [congruence|].
      simpl in Ht. apply orb_false_elim in Ht as [Hc Ht].
      destruct Hsep as [-> | ->].
      + change (" " +:+ String c tok +:+ rest)
          with (String " " (String c (tok +:+ rest))).
        rewrite replace_2sp_space_nonspace by assumption. f_equal.
        change (String c (tok +:+ rest)) with (String c tok +:+ rest).
        apply replace_2sp_app_nospace. simpl. now rewrite Hc, Ht.
      + change ("  " +:+ String c tok +:+ rest)
          with (String " " (String " " (String c tok +:+ rest))).
        rewrite replace_2sp_two_spaces. f_equal.
        apply replace_2sp_app_nospace. simpl. now rewrite Hc, Ht. }
  destruct Hrep as (R & HR & Hrep).
  unfold parse_item. rewrite Hitem, Hrep, split_app_sep by assumption.
  destruct HR as [-> | [w ->]].
  - rewrite append_empty_r, split_nosep by assumption. reflexivity.
  - rewrite split_app_sep by assumption. reflexivity.
Qed.

(** An item without a space is a field, ascending in both tables. *)
Lemma parse_item_field for_index item :
  Str.contains " " item = false ->
  parse_item (names_for for_index) item = Ok (item, ASCENDING).
Proof.
  intros H. unfold parse_item. rewrite H. now destruct for_index.
Qed.

(** ** The loops of get_sort *)

Lemma bind_Ok {A B} (a : A) (f : A -> result B) : (Ok a ≫= f) = f a.
Proof. reflexivity. Qed.

Lemma bind_Raise {A B} e (f : A -> result B) : (Raise e ≫= f) = Raise e.
Proof. reflexivity. Qed.

Lemma mapM_cons {A B} (f : A -> result B) x l :
  mapM f (x :: l) = (y ← f x; k ← mapM f l; mret (y :: k)).
Proof. reflexivity. Qed.

Lemma mapM_ext_result {A B} (f g : A -> result B) l :
  (forall x, f x = g x) -> mapM f l = mapM g l.
Proof.
  intros H. induction l as [|x l IH]; [reflexivity|].
  now rewrite !mapM_cons, H, IH.
Qed.

Lemma mapM_map_result {A B C} (f : B -> result C) (g : A -> B) l :
  mapM f (map g l) = mapM (fun x => f (g x)) l.
Proof.
  induction l as [|x l IH]; [reflexivity|].
  change (map g (x :: l)) with (g x :: map g l).
  now rewrite !mapM_cons, IH.
Qed.

(** The pairs a successful [mapM] returns are those of the items, one
    for one and in the same order. *)
Lemma mapM_Ok_Forall2 {A B} (f : A -> result B) l l' :
  mapM f l = Ok l' <-> Forall2 (fun x y => f x = Ok y) l l'.
Proof.
  revert l'. induction l as [|x l IH]; intros l'.
  - split.
    + intros [= <-]. constructor.
    + intros H. inversion H. reflexivity.
  - rewrite mapM_cons. split.
    + destruct (f x) as [y|e] eqn:Hx; [|discriminate].
      rewrite bind_Ok. destruct (mapM f l) as [k|e] eqn:Hl; [|discriminate].
      rewrite bind_Ok. intros [= <-]. constructor; [assumption|].
      now apply IH.
    + intros H. inversion H as [|? y ? k Hx Hl]; subst.
      apply IH in Hl. now rewrite Hx, bind_Ok, Hl, bind_Ok.
Qed.

Lemma items_loop_mapM names items lst :
  items_loop names items lst
  = (ps ← mapM (parse_item names)
            (List.filter Str.nonempty (map Str.strip items));
     mret (lst ++ ps)).
Proof.
  revert lst. induction items as [|item items IH]; intros lst.
  - cbn. now rewrite app_nil_r.
  - simpl items_loop. simpl map. simpl List.filter.
    destruct (Str.nonempty (Str.strip item)).
    + rewrite mapM_cons.
      destruct (parse_item names (Str.strip item)) as [p|e];
        [|now rewrite !bind_Raise].
      rewrite !bind_Ok, IH.
      destruct (mapM _ _) as [ps|e]; [|now rewrite !bind_Raise].
      rewrite !bind_Ok. unfold mret, result_ret.
      now rewrite <- app_assoc.
    + apply IH.
Qed.

(** Trimming a group does not change its items. *)
Lemma grammar_items_strip group :
  grammar_items (Str.strip group) = grammar_items group.
Proof. unfold grammar_items. now rewrite split_strip. Qed.

Lemma grammar_items_blank group :
  Str.nonempty (Str.strip group) = false -> grammar_items group = [].
Proof.
  intros H. rewrite <- grammar_items_strip.
  destruct (Str.strip group); [reflexivity|discriminate].
Qed.

Lemma groups_loop_mapM names groups sorts :
  groups_loop names groups sorts
  = (parsed ← mapM (fun group => mapM (parse_item names) (grammar_items group))
                groups;
     mret (sorts ++ List.filter nonnil parsed)).
Proof.
  revert sorts. induction groups as [|group groups IH]; intros sorts.
  - cbn. now rewrite app_nil_r.
  - simpl groups_loop. rewrite mapM_cons.
    destruct (Str.nonempty (Str.strip group)) eqn:Hg.
    + rewrite items_loop_mapM.
      fold (grammar_items (Str.strip group)). rewrite grammar_items_strip.
      destruct (mapM (parse_item names) (grammar_items group)) as [ps|e];
        [|now rewrite !bind_Raise].
      rewrite !bind_Ok. change ([] ++ ps) with ps. rewrite IH.
      destruct (mapM _ groups) as [parsed|e]; [|now rewrite !bind_Raise].
      rewrite !bind_Ok. unfold mret, result_ret. f_equal.
      destruct ps; simpl; [reflexivity|]. now rewrite <- app_assoc.
    + rewrite grammar_items_blank by assumption.
      change (mapM (parse_item names) []) with (Ok (@nil (string * direction))).
      rewrite bind_Ok, IH.
      destruct (mapM _ groups) as [parsed|e]; [|now rewrite !bind_Raise].
      now rewrite !bind_Ok.
Qed.

(** [get_sort] on a string follows the grammar. *)
Lemma get_sort_grammar_parse s for_index :
  get_sort (ArgStr s) for_index
  = (sorts ← grammar_parse (names_for for_index) s; mret (collapse sorts)).
Proof.
  unfold get_sort, grammar_parse. rewrite groups_loop_mapM.
  set (F := fun group => mapM (parse_item (names_for for_index))
                           (grammar_items group)).
  assert (E : mapM F (Str.split ";" (Str.strip s)) = mapM F (Str.split ";" s)).
  { transitivity (mapM F (map Str.strip (Str.split ";" (Str.strip s)))).
    - rewrite mapM_map_result. apply mapM_ext_result. intros g. unfold F.
      now rewrite grammar_items_strip.
    - rewrite split_strip by reflexivity.
      rewrite mapM_map_result. apply mapM_ext_result. intros g. unfold F.
      now rewrite grammar_items_strip. }
  rewrite E. destruct (mapM F _) as [parsed|e]; reflexivity.
Qed.

(** ** The direction table *)

Lemma names_for_lookup for_index k d :
  names_for for_index !! k = Some d <-> (k, d) ∈ direction_table for_index.
Proof.
  split.
  - destruct for_index;
      unfold names_for, INDEX_NAMES, SORT_NAMES, direction_table;
      cbn [app]; rewrite !lookup_insert_Some, lookup_empty; intros H;
      repeat (destruct H as [[<- <-]|[_ H]]; [repeat constructor|]);
      discriminate.
  - destruct for_index; unfold direction_table; cbn [app];
      rewrite !elem_of_cons, elem_of_nil;
      intros H; repeat (destruct H as [H|H]); try contradiction;
      apply pair_equal_spec in H as [-> ->]; reflexivity.
Qed.

Lemma names_for_None for_index k :
  names_for for_index !! k = None <-> k ∉ (direction_table for_index).*1.
Proof.
  rewrite eq_None_not_Some. apply not_iff_compat. split.
  - intros [d Hd]. apply names_for_lookup in Hd.
    apply list_elem_of_fmap. now exists (k, d).
  - intros H. apply list_elem_of_fmap in H as ([k' d] & -> & H).
    exists d. now apply names_for_lookup.
Qed.

Lemma lower_char_idemp c : Str.lower_char (Str.lower_char c) = Str.lower_char c.
Proof.
  destruct c as [[] [] [] [] [] [] [] []]; reflexivity.
Qed.

Lemma lower_idemp s : Str.lower (Str.lower s) = Str.lower s.
Proof.
  induction s as [|c s IH]; [reflexivity|].
  simpl. now rewrite lower_char_idemp, IH.
Qed.

Lemma lookup_direction_Ok for_index tok d :
  lookup_direction (names_for for_index) tok = Ok d
  <-> (Str.lower tok, d) ∈ direction_table for_index.
Proof.
  unfold lookup_direction. rewrite <- names_for_lookup. split.
  - intros H.
    destruct (subscript_cases (names_for for_index) (Str.lower tok))
      as [(d' & Hd & E)|[_ E]]; congruence.
  - intros H. unfold subscript. now rewrite H.
Qed.

Lemma lookup_direction_Raise for_index tok :
  lookup_direction (names_for for_index) tok = Raise (KeyError (Str.lower tok))
  <-> Str.lower tok ∉ (direction_table for_index).*1.
Proof.
  unfold lookup_direction. rewrite <- names_for_None. split.
  - intros H.
    destruct (subscript_cases (names_for for_index) (Str.lower tok))
      as [(d' & Hd & E)|[Hn E]]; [congruence|assumption].
  - intros H. unfold subscript. now rewrite H.
Qed.

Lemma lookup_direction_cases names tok :
  (exists d, lookup_direction names tok = Ok d)
  \/ lookup_direction names tok = Raise (KeyError (Str.lower tok)).
Proof.
  unfold lookup_direction.
  destruct (subscript_cases names (Str.lower tok))
    as [(d & _ & E)|[_ E]]; eauto.
Qed.

(** A field, one space and a token: the direction is what the lookup
    of the token gives, and its error is the error of the item. *)
Lemma parse_item_one_space names field tok :
  Str.contains " " field = false ->
  Str.contains " " tok = false -> tok <> "" ->
  parse_item names (field +:+ " " +:+ tok)
  = (d ← lookup_direction names tok; mret (field, d)).
Proof.
  intros Hf Ht Hne. rewrite <- (append_empty_r tok) at 1.
  apply parse_item_tokens; auto.
Qed.

(** C2. The direction token is lower-cased and looked up in the table
    of the mode: it resolves to [d] exactly when the lower-cased token
    stands for [d] in the table ({asc, ascending, desc, descending} for
    sorting, with {geo2d, geosphere, hashed, text} added for indexes);
    any other token raises [KeyError] and nothing is defaulted: the
    item has the direction, or the error, of the lookup.  Case variants
    resolve alike; ["hashed"] fails for a sort and succeeds for an
    index. *)
Theorem direction_tokens (for_index : bool) (tok : string) :
  (forall d, lookup_direction (names_for for_index) tok = Ok d
             <-> (Str.lower tok, d) ∈ direction_table for_index)
  /\ (lookup_direction (names_for for_index) tok
      = Raise (KeyError (Str.lower tok))
      <-> Str.lower tok ∉ (direction_table for_index).*1)
  /\ ((exists d, lookup_direction (names_for for_index) tok = Ok d)
      \/ lookup_direction (names_for for_index) tok
         = Raise (KeyError (Str.lower tok)))
  /\ lookup_direction (names_for for_index) (Str.lower tok)
     = lookup_direction (names_for for_index) tok
  /\ lookup_direction (names_for for_index) "DESC" = Ok DESCENDING
  /\ lookup_direction (names_for for_index) "desc" = Ok DESCENDING
  /\ lookup_direction (names_for false) "hashed" = Raise (KeyError "hashed")
  /\ lookup_direction (names_for true) "hashed" = Ok HASHED
  /\ (forall field,
        Str.contains " " field = false ->
        Str.contains " " tok = false -> tok <> "" ->
        parse_item (names_for for_index) (field +:+ " " +:+ tok)
        = (d ← lookup_direction (names_for for_index) tok; mret (field, d)))
  /\ get_sort (ArgStr "a hashed") false = Raise (KeyError "hashed")
  /\ get_sort (ArgStr "a hashed") true = Ok (RetOne [("a", HASHED)])
  /\ get_sort (ArgStr "a Desc") false = get_sort (ArgStr "a desc") false.
Proof.
  split; [intros d; apply lookup_direction_Ok|].
  split; [apply lookup_direction_Raise|].
  split; [apply lookup_direction_cases|].
  split; [unfold lookup_direction; now rewrite lower_idemp|].
  split; [now destruct for_index|]. split; [now destruct for_index|].
  split; [reflexivity|]. split; [reflexivity|].
  split; [intros field Hf Ht Hne; now apply parse_item_one_space|].
  split; [reflexivity|]. split; reflexivity.
Qed.

Lemma direction_tokens_witness :
  parse_item (names_for false) ("age" +:+ " " +:+ "Descending")
  = (d ← lookup_direction (names_for false) "Descending"; mret ("age", d)).
Proof.
  apply (proj1 (proj2 (proj2 (proj2 (proj2 (proj2 (proj2 (proj2 (proj2
           (direction_tokens false "Descending"))))))))) "age");
    [reflexivity | reflexivity | discriminate].
Defined.

(** C3. Three spaces between field and direction are not collapsed to
    one: [replace] leaves two of them, the second piece of the split is
    empty and the lookup of the empty token raises [KeyError], in both
    modes; one or two spaces, and extra tokens, are accepted. *)
Theorem get_sort_three_spaces :
  Str.replace_2sp "a   desc" = "a  desc"
  /\ take 2 (Str.split " " (Str.replace_2sp "a   desc")) = ["a"; ""]
  /\ get_sort (ArgStr "a   desc") false = Raise (KeyError "")
  /\ get_sort (ArgStr "a   desc") true = Raise (KeyError "")
  /\ get_sort (ArgStr "a  desc") false = Ok (RetOne [("a", DESCENDING)])
  /\ get_sort (ArgStr "a desc") false = Ok (RetOne [("a", DESCENDING)])
  /\ get_sort (ArgStr "a desc nulls last") false
     = Ok (RetOne [("a", DESCENDING)]).
Proof. repeat split. Qed.

Lemma no_whitespace_no_space item :
  Str.any Str.isspace item = false -> Str.contains " " item = false.
Proof.
  induction item as [|c item IH]; [reflexivity|].
  simpl. intros H. apply orb_false_elim in H as [Hc Hi].
  rewrite IH by assumption.
  destruct (Ascii.eqb_spec c " ") as [->|]; [discriminate|reflexivity].
Qed.

(** C4. When the input yields exactly one non-empty group, [get_sort]
    returns that group's list of pairs itself, not a list holding it;
    when it yields two or more, it returns the list of the groups'
    lists, in group order. *)
Theorem get_sort_shape (s : string) (for_index : bool)
    (sorts : list sort_spec) :
  grammar_parse (names_for for_index) s = Ok sorts ->
  (forall spec, sorts = [spec] ->
     get_sort (ArgStr s) for_index = Ok (RetOne spec)
     /\ get_sort (ArgStr s) for_index <> Ok (RetMany [spec]))
  /\ (2 <= length sorts -> get_sort (ArgStr s) for_index = Ok (RetMany sorts)).
Proof.
  intros H. rewrite get_sort_grammar_parse, H, bind_Ok. split.
  - intros spec ->. split; [reflexivity|discriminate].
  - intros Hlen. destruct sorts as [|a [|b l]]; simpl in Hlen; try lia.
    reflexivity.
Qed.

Lemma get_sort_shape_witness :
  get_sort (ArgStr "a desc; b asc") false
  = Ok (RetMany [[("a", DESCENDING)]; [("b", ASCENDING)]])
  /\ get_sort (ArgStr "a desc, b") false
     = Ok (RetOne [("a", DESCENDING); ("b", ASCENDING)]).
Proof.
  split.
  - apply (get_sort_shape "a desc; b asc" false
             [[("a", DESCENDING)]; [("b", ASCENDING)]]);
      [reflexivity | simpl; lia].
  - destruct (get_sort_shape "a desc, b" false
                [[("a", DESCENDING); ("b", ASCENDING)]]) as [H _];
      [reflexivity|].
    apply (H _ eq_refl).
Defined.

(** C5. [get_sort] splits the input on [;] into groups and each group
    on [,] into items, trims each item and skips what is empty after
    trimming; an item without whitespace is a field in ascending order;
    the pairs of a group are those of its items, one for one and in the
    order given. *)
Theorem get_sort_grammar (s : string) (for_index : bool) :
  get_sort (ArgStr s) for_index
  = (sorts ← grammar_parse (names_for for_index) s; mret (collapse sorts))
  /\ (forall item, Str.any Str.isspace item = false ->
        parse_item (names_for for_index) item = Ok (item, ASCENDING))
  /\ (forall parsed,
        mapM (fun group => mapM (parse_item (names_for for_index))
                             (grammar_items group)) (Str.split ";" s)
        = Ok parsed ->
        Forall2 (fun group spec =>
                   Forall2 (fun item p =>
                              parse_item (names_for for_index) item = Ok p)
                     (grammar_items group) spec)
          (Str.split ";" s) parsed)
  /\ get_sort (ArgStr "a desc, b") false
     = Ok (RetOne [("a", DESCENDING); ("b", ASCENDING)])
  /\ get_sort (ArgStr " ;a desc , ,b ; ; c,") false
     = Ok (RetMany [[("a", DESCENDING); ("b", ASCENDING)]; [("c", ASCENDING)]]).
Proof.
  split; [apply get_sort_grammar_parse|].
  split; [intros item H; now apply parse_item_field, no_whitespace_no_space|].
  split; [|split; reflexivity].
  intros parsed H. apply mapM_Ok_Forall2 in H.
  eapply Forall2_impl; [exact H|].
  intros group spec Hg. now apply mapM_Ok_Forall2.
Qed.

Lemma get_sort_grammar_witness :
  parse_item (names_for false) "b" = Ok ("b", ASCENDING)
  /\ Forall2 (fun group spec =>
                Forall2 (fun item p => parse_item (names_for false) item = Ok p)
                  (grammar_items group) spec)
       (Str.split ";" "a desc, b") [[("a", DESCENDING); ("b", ASCENDING)]].
Proof.
  split.
  - apply (proj1 (proj2 (get_sort_grammar "a desc, b" false)) "b").
    reflexivity.
  - apply (proj1 (proj2 (proj2 (get_sort_grammar "a desc, b" false)))).
    reflexivity.
Defined.

(** ** The uniqueness filter *)

Section uniq_props.
Context {V : Type}.
Implicit Types (doc spec : gmap string V) (fields ks : list string).

Lemma keys_loop_lookup doc ks spec k :
  keys_loop doc ks spec !! k
  = match (if bool_decide (k ∈ ks) then doc !! k else None) with
    | Some v => Some v
    | None => spec !! k
    end.
Proof.
  revert spec. induction ks as [|a ks IH]; intros spec.
  - cbn [keys_loop]. rewrite bool_decide_eq_false_2; [reflexivity|].
    apply not_elem_of_nil.
  - cbn [keys_loop]. rewrite IH. destruct (decide (k = a)) as [->|Hne].
    + rewrite (bool_decide_eq_true_2 (a ∈ a :: ks)) by apply list_elem_of_here.
      destruct (doc !! a) as [v|] eqn:Hd.
      * rewrite lookup_insert_eq. now destruct (bool_decide (a ∈ ks)).
      * now destruct (bool_decide (a ∈ ks)).
    + assert (E : bool_decide (k ∈ a :: ks) = bool_decide (k ∈ ks)).
      { apply bool_decide_ext. rewrite elem_of_cons. tauto. }
      rewrite E. destruct (doc !! a) as [v|]; [|reflexivity].
      now rewrite lookup_insert_ne by congruence.
Qed.

(** The sub-filter of a group holds the candidate's value for each
    listed field that the candidate has, and nothing else. *)
Lemma group_spec_lookup doc field k :
  group_spec doc field !! k
  = if bool_decide (k ∈ group_keys field) then doc !! k else None.
Proof.
  unfold group_spec. rewrite keys_loop_lookup, lookup_empty.
  destruct (bool_decide _); [|reflexivity]. now destruct (doc !! k).
Qed.

Lemma dict_truthy_spec spec :
  dict_truthy spec = true <-> exists k, is_Some (spec !! k).
Proof.
  unfold dict_truthy. rewrite negb_true_iff, Nat.eqb_neq, map_size_ne_0_lookup.
  reflexivity.
Qed.

Lemma dict_truthy_empty spec : dict_truthy spec = false <-> spec = ∅.
Proof.
  unfold dict_truthy. rewrite negb_false_iff, Nat.eqb_eq.
  apply map_size_empty_iff.
Qed.

(** A group contributes as soon as one of its fields is present. *)
Lemma group_contributes doc field :
  dict_truthy (group_spec doc field) = true
  <-> exists k, k ∈ group_keys field /\ is_Some (doc !! k).
Proof.
  rewrite dict_truthy_spec. split.
  - intros [k Hk]. rewrite group_spec_lookup in Hk. exists k.
    destruct (bool_decide (k ∈ group_keys field)) eqn:E.
    + split; [now apply bool_decide_eq_true in E|assumption].
    + now destruct Hk.
  - intros (k & Hin & Hk). exists k. rewrite group_spec_lookup.
    now rewrite bool_decide_eq_true_2.
Qed.

Lemma fields_loop_filter doc fields specs :
  fields_loop doc fields specs
  = specs ++ List.filter dict_truthy (map (group_spec doc) fields).
Proof.
  revert specs. induction fields as [|field fields IH]; intros specs.
  - simpl. now rewrite app_nil_r.
  - simpl. rewrite IH. destruct (dict_truthy (group_spec doc field));
      [now rewrite <- app_assoc | reflexivity].
Qed.

Lemma get_uniq_spec_filter fields doc :
  get_uniq_spec fields doc
  = match List.filter dict_truthy (map (group_spec doc) fields) with
    | [] => None
    | specs => Some (Or specs)
    end.
Proof. unfold get_uniq_spec. now rewrite fields_loop_filter. Qed.

(** C1, as the code has it.  A field group contributes a sub-filter
    exactly when at least one of its listed fields is a key of the
    candidate; the sub-filter holds the candidate's value for the
    listed fields that are present and nothing for the others; the
    sub-filters of the result are those of the contributing groups. *)
Theorem get_uniq_spec_groups fields doc :
  (forall field,
      dict_truthy (group_spec doc field) = true
      <-> exists k, k ∈ group_keys field /\ is_Some (doc !! k))
  /\ (forall field k,
        group_spec doc field !! k
        = if bool_decide (k ∈ group_keys field) then doc !! k else None)
  /\ (forall specs spec,
        get_uniq_spec fields doc = Some (Or specs) ->
        (spec ∈ specs
         <-> exists field, field ∈ fields /\ spec = group_spec doc field
                           /\ exists k, k ∈ group_keys field
                                        /\ is_Some (doc !! k)))
  /\ get_uniq_spec ["email"; "username,tenant_id"] Ex.candidate
     = Some (Or [ {["email" := VStr "x@y.com"]};
                  {["tenant_id" := VStr "t1"]} ]).
Proof.
  split; [intros field; apply group_contributes|].
  split; [intros field k; apply group_spec_lookup|].
  split; [|reflexivity].
  intros specs spec. rewrite get_uniq_spec_filter.
  destruct (List.filter _ _) as [|s0 l] eqn:E; [discriminate|].
  intros [= <-]. rewrite <- E, list_elem_of_In, filter_In, in_map_iff.
  split.
  - intros [(field & <- & Hin) Ht]. exists field.
    split; [now apply list_elem_of_In|]. split; [reflexivity|].
    now apply group_contributes.
  - intros (field & Hin & -> & Hk). split.
    + exists field. split; [reflexivity|now apply list_elem_of_In].
    + now apply group_contributes.
Qed.

(** C8. [get_uniq_spec] returns [None] when no non-empty sub-filter
    remains, as for an empty list of groups and when no listed field
    is a key of the candidate; otherwise it returns the disjunction
    of all the non-empty sub-filters, in the order of the groups. *)
Theorem get_uniq_spec_none_or fields doc :
  get_uniq_spec fields doc
  = match List.filter dict_truthy (map (group_spec doc) fields) with
    | [] => None
    | specs => Some (Or specs)
    end
  /\ get_uniq_spec [] doc = None
  /\ ((forall field k, field ∈ fields -> k ∈ group_keys field ->
                       doc !! k = None) ->
      get_uniq_spec fields doc = None)
  /\ (forall specs, get_uniq_spec fields doc = Some (Or specs) ->
        specs <> [] /\ Forall (fun spec => spec <> ∅) specs)
  /\ get_uniq_spec ["missing_field"] Ex.other_doc = None.
Proof.
  split; [apply get_uniq_spec_filter|].
  split; [reflexivity|]. split; [|split; [|reflexivity]].
  - intros H. rewrite get_uniq_spec_filter.
    destruct (List.filter _ _) as [|s0 l] eqn:E; [reflexivity|].
    assert (Hin : In s0 (List.filter dict_truthy (map (group_spec doc) fields)))
      by (rewrite E; now left).
    apply filter_In in Hin as [Hin Ht].
    apply in_map_iff in Hin as (field & <- & Hin).
    apply group_contributes in Ht as (k & Hk & [v Hv]).
    rewrite (H field k) in Hv; [discriminate| |assumption].
    now apply list_elem_of_In.
  - intros specs. rewrite get_uniq_spec_filter.
    destruct (List.filter _ _) as [|s0 l] eqn:E; [discriminate|].
    intros [= <-]. split; [discriminate|].
    rewrite <- E. apply List.Forall_forall. intros spec Hin.
    apply filter_In in Hin as [_ Ht]. intros ->.
    assert (Hf : dict_truthy (∅ : gmap string V) = false)
      by now apply dict_truthy_empty.
    congruence.
Qed.

End uniq_props.

Lemma get_uniq_spec_none_or_witness :
  get_uniq_spec ["missing_field"; "a, b"] Ex.other_doc = None.
Proof.
  apply (proj1 (proj2 (proj2
           (get_uniq_spec_none_or ["missing_field"; "a, b"] Ex.other_doc)))).
  intros field k Hf Hk.
  apply list_elem_of_In in Hf. apply list_elem_of_In in Hk.
  destruct Hf as [<-|[<-|[]]].
  - destruct Hk as [<-|[]]. reflexivity.
  - destruct Hk as [<-|[<-|[]]]; reflexivity.
Defined.

Lemma get_uniq_spec_groups_witness :
  exists field, field ∈ ["email"; "username,tenant_id"]
                /\ ({["tenant_id" := VStr "t1"]} : gmap string pyval)
                   = group_spec Ex.candidate field
                /\ exists k, k ∈ group_keys field
                             /\ is_Some (Ex.candidate !! k).
Proof.
  apply (proj1 (proj1 (proj2 (proj2
           (get_uniq_spec_groups ["email"; "username,tenant_id"] Ex.candidate)))
           [ {["email" := VStr "x@y.com"]}; {["tenant_id" := VStr "t1"]} ]
           {["tenant_id" := VStr "t1"]} eq_refl)).
  repeat constructor.
Defined.

(** C1, as the spec states it, fails: the group ["username,tenant_id"]
    contributes the sub-filter [{"tenant_id": "t1"}] although
    [username] is no key of the candidate, so the result has two
    sub-filters and is not the disjunction of [{"email": "x@y.com"}]
    alone. *)
Lemma get_uniq_spec_partial_group :
  Ex.candidate !! "username" = None
  /\ "username" ∈ group_keys "username,tenant_id"
  /\ dict_truthy (group_spec Ex.candidate "username,tenant_id") = true
  /\ get_uniq_spec ["email"; "username,tenant_id"] Ex.candidate
     <> Some (Or [ {["email" := VStr "x@y.com"]} ])
  /\ ~ (forall (fields : list string) (doc : gmap string pyval) field,
          field ∈ fields ->
          dict_truthy (group_spec doc field) = true ->
          forall k, k ∈ group_keys field -> is_Some (doc !! k)).
Proof.
  split; [reflexivity|]. split; [apply list_elem_of_here|].
  split; [reflexivity|]. split.
  - intros H. apply (f_equal (fun o => match o with
                                       | Some (Or l) => length l
                                       | None => 0
                                       end)) in H.
    vm_compute in H. discriminate.
  - intros H.
    specialize (H ["email"; "username,tenant_id"] Ex.candidate
                  "username,tenant_id").
    destruct (H ltac:(repeat constructor) eq_refl "username"
                ltac:(apply list_elem_of_here)) as [v Hv].
    discriminate.
Qed.

(** ** Class-level defaults *)

Lemma setdefault_lookup {A} k (v : A) (d : gmap string A) j :
  setdefault k v d !! j
  = match d !! j with
    | Some x => Some x
    | None => if decide (k = j) then Some v else None
    end.
Proof.
  unfold setdefault. destruct (d !! k) as [x|] eqn:Hk.
  - destruct (d !! j) eqn:Hj; [reflexivity|].
    destruct (decide (k = j)) as [->|]; [congruence|reflexivity].
  - rewrite lookup_insert. destruct (decide (k = j)) as [->|].
    + now rewrite Hk.
    + now destruct (d !! j).
Qed.

(** Running [setdefault] over the items of [d] keeps what [data] has
    and adds the rest of [d], whatever the order of the items. *)
Lemma setdefault_items_lookup (data d : gmap string pyval) j :
  map_fold (fun k v data => setdefault k v data) data d !! j
  = match data !! j with
    | Some x => Some x
    | None => d !! j
    end.
Proof.
  revert j.
  apply (map_fold_weak_ind
           (fun r (m : gmap string pyval) =>
              forall j, r !! j = match data !! j with
                                 | Some x => Some x
                                 | None => m !! j
                                 end)).
  - intros j. rewrite lookup_empty. now destruct (data !! j).
  - intros i x m r Hi IH j. rewrite setdefault_lookup, IH, lookup_insert.
    destruct (data !! j); [reflexivity|].
    destruct (decide (i = j)) as [->|]; [now rewrite Hi|].
    now destruct (m !! j).
Qed.

Lemma get_class_attr_cons kls rest name data j :
  get_class_attr (kls :: rest) name true data !! j
  = get_class_attr rest name true
      (match cls_dict kls !! name with
       | Some d => map_fold (fun k v data => setdefault k v data) data d
       | None => data
       end) !! j.
Proof. reflexivity. Qed.

Lemma class_step_lookup kls name (data : gmap string pyval) j :
  match cls_dict kls !! name with
  | Some d => map_fold (fun k v data => setdefault k v data) data d
  | None => data
  end !! j
  = match data !! j with
    | Some x => Some x
    | None => own_attr kls name j
    end.
Proof.
  unfold own_attr. destruct (cls_dict kls !! name) as [d|]; simpl.
  - apply setdefault_items_lookup.
  - rewrite lookup_empty. now destruct (data !! j).
Qed.

(** What is in [data] stays. *)
Lemma get_class_attr_keeps mro name data j x :
  data !! j = Some x -> get_class_attr mro name true data !! j = Some x.
Proof.
  revert data. induction mro as [|kls rest IH]; intros data H; [exact H|].
  rewrite get_class_attr_cons. apply IH. now rewrite class_step_lookup, H.
Qed.

(** The first class that declares [j] gives its value. *)
Lemma get_class_attr_first pre kls post name data j v :
  data !! j = None ->
  Forall (fun k => own_attr k name j = None) pre ->
  own_attr kls name j = Some v ->
  get_class_attr (pre ++ kls :: post) name true data !! j = Some v.
Proof.
  intros Hd Hpre Hk. revert data Hd.
  induction Hpre as [|k pre Hk0 Hpre IH]; intros data Hd.
  - simpl app. rewrite get_class_attr_cons. apply get_class_attr_keeps.
    now rewrite class_step_lookup, Hd.
  - change ((k :: pre) ++ kls :: post) with (k :: (pre ++ kls :: post)).
    rewrite get_class_attr_cons. apply IH.
    now rewrite class_step_lookup, Hd.
Qed.

Lemma get_class_attr_none mro name data j :
  data !! j = None ->
  Forall (fun k => own_attr k name j = None) mro ->
  get_class_attr mro name true data !! j = None.
Proof.
  intros Hd Hmro. revert data Hd.
  induction Hmro as [|k mro Hk Hmro IH]; intros data Hd; [exact Hd|].
  rewrite get_class_attr_cons. apply IH. now rewrite class_step_lookup, Hd.
Qed.

Lemma mro_default_first pre kls post key v :
  Forall (fun k => own_default k key = None) pre ->
  own_default kls key = Some v ->
  mro_default (pre ++ kls :: post) key = v.
Proof.
  intros Hpre Hk. induction Hpre as [|k pre Hk0 Hpre IH]; simpl.
  - now rewrite Hk.
  - now rewrite Hk0.
Qed.

Lemma mro_default_none mro key :
  Forall (fun k => own_default k key = None) mro -> mro_default mro key = VNone.
Proof.
  intros Hmro. induction Hmro as [|k mro Hk Hmro IH]; [reflexivity|].
  simpl. now rewrite Hk.
Qed.

(** The merged map and the walk along the ancestry agree. *)
Lemma mro_default_all_defaults mro key :
  mro_default mro key = default VNone (get_all_defaults mro !! key).
Proof.
  unfold get_all_defaults.
  assert (H : forall data, data !! key = None ->
            mro_default mro key
            = default VNone
                (get_class_attr mro "__default_values__" true data !! key)).
  { induction mro as [|kls rest IH]; intros data Hd.
    - simpl. now rewrite Hd.
    - rewrite get_class_attr_cons. simpl mro_default.
      destruct (own_default kls key) as [v|] eqn:Hk.
      + erewrite get_class_attr_keeps; [reflexivity|].
        rewrite class_step_lookup, Hd. exact Hk.
      + apply IH. rewrite class_step_lookup, Hd. exact Hk. }
  apply H, lookup_empty.
Qed.

(** What attribute access gives, case by case on what the classes
    have under the name. *)
Lemma attribute_cases (mro : list klass) (d : gmap string pyval)
    (key : string) :
  fst (attribute key (Instance mro d))
  = match type_lookup mro key with
    | Some (EntryProperty item) => AVal (fst (__getitem__ item (Instance mro d)))
    | Some (EntryPlain v) => AVal (default v (d !! key))
    | Some (EntryDict m) =>
        match d !! key with Some v => AVal v | None => ADict m end
    | None => AVal (default (mro_default mro key) (d !! key))
    end.
Proof.
  unfold attribute. cbn [inst_mro inst_dict].
  destruct (type_lookup mro key) as [[item|v|m]|];
    try reflexivity; now destruct (d !! key).
Qed.

(** C6. Default resolution walks the ancestry from the most-derived
    class and returns the value of the first class that declares the
    key in its own default map, so a declaration in a subtype hides the
    one of a parent; when no class declares the key the result is
    [None], and no error.  [__getattr__] returns that value, and so
    does [__getitem__] for a key that was never set; attribute access
    does for a key that was never set and that no class has as an
    attribute, while a property of the class (as [id]) is served by its
    getter. *)
Theorem default_resolution (mro : list klass) (key : string) :
  (forall pre kls post v,
      mro = pre ++ kls :: post ->
      Forall (fun k => own_default k key = None) pre ->
      own_default kls key = Some v ->
      mro_default mro key = v)
  /\ (Forall (fun k => own_default k key = None) mro ->
      mro_default mro key = VNone)
  /\ (forall d,
        fst (_get_default key (Instance mro d)) = mro_default mro key
        /\ fst (__getattr__ key (Instance mro d)) = mro_default mro key
        /\ fst (__getitem__ key (Instance mro d))
           = default (mro_default mro key) (d !! key)
        /\ (d !! key = None ->
            fst (__getitem__ key (Instance mro d)) = mro_default mro key
            /\ (type_lookup mro key = None ->
                fst (attribute key (Instance mro d))
                = AVal (mro_default mro key)))
        /\ (forall item,
              type_lookup mro key = Some (EntryProperty item) ->
              fst (attribute key (Instance mro d))
              = AVal (fst (__getitem__ item (Instance mro d))))
        /\ snd (attribute key (Instance mro d)) = Instance mro d)
  /\ mro_default Ex.Plain_mro "status" = VStr "new"
  /\ mro_default Ex.Leaf_mro "kind" = VStr "mid"
  /\ mro_default Ex.Leaf_mro "missing" = VNone
  /\ fst (attribute "id" Ex2.saved) = AVal (VInt 7)
  /\ fst (attribute "status" Ex2.saved) = AVal (VStr "new").
Proof.
  split; [intros pre kls post v ->; apply mro_default_first|].
  split; [apply mro_default_none|].
  split; [|repeat split].
  intros d. do 3 (split; [reflexivity|]). split; [|split].
  - intros Hd. split.
    + unfold __getitem__. simpl. now rewrite Hd.
    + intros Ht. now rewrite attribute_cases, Ht, Hd.
  - intros item Ht. now rewrite attribute_cases, Ht.
  - unfold attribute. cbn [inst_mro inst_dict].
    destruct (type_lookup mro key) as [[item|v|m]|];
      try reflexivity; now destruct (d !! key).
Qed.

Lemma default_resolution_witness :
  mro_default Ex.Plain_mro "status" = VStr "new"
  /\ mro_default Ex.Leaf_mro "kind" = VStr "mid"
  /\ mro_default [Ex.Plain; Ex.object] "status" = VNone
  /\ fst (attribute "level" Ex.leaf) = AVal (mro_default Ex.Leaf_mro "level")
  /\ fst (attribute "id" Ex2.saved)
     = AVal (fst (__getitem__ "_id" Ex2.saved)).
Proof.
  split; [|split; [|split; [|split]]].
  - apply (proj1 (default_resolution Ex.Plain_mro "status")
             [Ex.Plain] Ex.Base [Ex.object] (VStr "new") eq_refl).
    + repeat constructor.
    + reflexivity.
  - apply (proj1 (default_resolution Ex.Leaf_mro "kind")
             [Ex.Leaf] Ex.Mid [Ex.Base; Ex.object] (VStr "mid") eq_refl).
    + repeat constructor.
    + reflexivity.
  - apply (proj1 (proj2 (default_resolution [Ex.Plain; Ex.object] "status"))).
    repeat constructor.
  - destruct (proj1 (proj2 (proj2 (default_resolution Ex.Leaf_mro "level")))
                (inst_dict Ex.leaf)) as (_ & _ & _ & H & _).
    destruct (H eq_refl) as [_ H']. apply H'. reflexivity.
  - destruct (proj1 (proj2 (proj2 (default_resolution Ex2.Model_mro "id")))
                (inst_dict Ex2.saved)) as (_ & _ & _ & _ & H & _).
    apply (H "_id"). reflexivity.
Defined.

(** C7. [get_all_defaults] merges the default maps of the whole
    ancestry: a key has the value of the most-derived class that
    declares it, a key declared by an ancestor only is still there, and
    a key no class declares is not. *)
Theorem get_all_defaults_merge (mro : list klass) (key : string) :
  (forall pre kls post v,
      mro = pre ++ kls :: post ->
      Forall (fun k => own_default k key = None) pre ->
      own_default kls key = Some v ->
      get_all_defaults mro !! key = Some v)
  /\ (Forall (fun k => own_default k key = None) mro ->
      get_all_defaults mro !! key = None)
  /\ mro_default mro key = default VNone (get_all_defaults mro !! key)
  /\ get_all_defaults Ex.Leaf_mro
     = <["name" := VStr "leaf"]> (<["kind" := VStr "mid"]>
       (<["level" := VInt 2]> (<["status" := VStr "new"]> ∅))).
Proof.
  split; [|split; [|split]].
  - intros pre kls post v -> Hpre Hk.
    now apply get_class_attr_first; [apply lookup_empty| |].
  - intros H. now apply get_class_attr_none; [apply lookup_empty|].
  - apply mro_default_all_defaults.
  - vm_compute. reflexivity.
Qed.

Lemma get_all_defaults_merge_witness :
  get_all_defaults Ex.Leaf_mro !! "kind" = Some (VStr "mid")
  /\ get_all_defaults Ex.Leaf_mro !! "status" = Some (VStr "new")
  /\ get_all_defaults Ex.Leaf_mro !! "missing" = None.
Proof.
  split; [|split].
  - apply (proj1 (get_all_defaults_merge Ex.Leaf_mro "kind")
             [Ex.Leaf] Ex.Mid [Ex.Base; Ex.object] (VStr "mid") eq_refl).
    + repeat constructor.
    + reflexivity.
  - apply (proj1 (get_all_defaults_merge Ex.Leaf_mro "status")
             [Ex.Leaf; Ex.Mid] Ex.Base [Ex.object] (VStr "new") eq_refl).
    + repeat constructor.
    + reflexivity.
  - apply (proj1 (proj2 (get_all_defaults_merge Ex.Leaf_mro "missing"))).
    repeat constructor.
Defined.

(** ** Reads leave the instance alone *)

Lemma run_read_state op self : snd (run_read op self) = self.
Proof. destruct op; reflexivity. Qed.

Lemma run_reads_state ops self : snd (run_reads ops self) = self.
Proof.
  induction ops as [|op ops IH]; [reflexivity|].
  simpl. pose proof (run_read_state op self) as Hop.
  destruct (run_read op self) as [v self1]. simpl in Hop. subst self1.
  destruct (run_reads ops self) as [vs self2]. simpl in IH. now subst self2.
Qed.

(** C10. [__getattr__], [__getitem__] and [_get_default] give their
    instance back as it was: after any sequence of them the attribute
    dictionary is the same, a key that was not set is still not set (no
    default is stored), and a read gives what it gave before; the
    default comes from the classes at the time of the read. *)
Theorem reads_leave_instance (self : instance) :
  (forall op, snd (run_read op self) = self)
  /\ (forall ops, inst_dict (snd (run_reads ops self)) = inst_dict self)
  /\ (forall ops key,
        inst_dict self !! key = None ->
        inst_dict (snd (run_reads ops self)) !! key = None)
  /\ (forall ops op,
        fst (run_read op (snd (run_reads ops self))) = fst (run_read op self))
  /\ (forall ops key mro',
        inst_dict self !! key = None ->
        fst (__getitem__ key
               (Instance mro' (inst_dict (snd (run_reads ops self)))))
        = mro_default mro' key).
Proof.
  split; [intros op; apply run_read_state|].
  split; [intros ops; now rewrite run_reads_state|].
  split; [intros ops key H; now rewrite run_reads_state|].
  split; [intros ops op; now rewrite run_reads_state|].
  intros ops key mro' H. rewrite run_reads_state.
  unfold __getitem__. simpl. now rewrite H.
Qed.

Lemma reads_leave_instance_witness :
  inst_dict (snd (run_reads [GetItem "level"; GetAttr "level";
                             GetDefault "kind"] Ex.leaf)) !! "level" = None
  /\ fst (__getitem__ "level"
            (Instance Ex.Plain_mro
               (inst_dict (snd (run_reads [GetItem "level"] Ex.leaf)))))
     = mro_default Ex.Plain_mro "level".
Proof.
  split.
  - apply (proj1 (proj2 (proj2 (reads_leave_instance Ex.leaf)))).
    reflexivity.
  - apply (proj2 (proj2 (proj2 (proj2 (reads_leave_instance Ex.leaf))))).
    reflexivity.
Defined.

(** ** The error-capturing wrapper *)

Lemma write_capture_errors drv cls c kw :
  write drv cls c kw
  = capture_errors drv cls (ByName (write_name c)) (write_args c) kw.
Proof. destruct c; reflexivity. Qed.

(** With the flag left out, or true, an exception of the action
    becomes its string. *)
Lemma capture_errors_caught drv cls act args kw ex :
  truthy (default (VBool true) (kw !! "capture_errors")) = true ->
  _run drv cls act args (delete "capture_errors" kw) = Raised ex ->
  capture_errors drv cls act args kw = Returned (VStr (exc_str ex)).
Proof.
  intros Hflag Hrun. unfold capture_errors. now rewrite Hflag, Hrun.
Qed.

(** [KeyboardInterrupt] and the like are not caught. *)
Lemma capture_errors_exit drv cls act args kw name :
  _run drv cls act args (delete "capture_errors" kw) = Exited name ->
  capture_errors drv cls act args kw = Exited name.
Proof.
  intros Hrun. unfold capture_errors. rewrite Hrun.
  now destruct (truthy _).
Qed.

(** With a false flag the wrapper is the action. *)
Lemma capture_errors_off drv cls act args kw :
  truthy (default (VBool true) (kw !! "capture_errors")) = false ->
  capture_errors drv cls act args kw
  = _run drv cls act args (delete "capture_errors" kw).
Proof. intros Hflag. unfold capture_errors. now rewrite Hflag. Qed.

(** What the action returns is returned as it is. *)
Lemma capture_errors_returned drv cls act args kw v :
  _run drv cls act args (delete "capture_errors" kw) = Returned v ->
  capture_errors drv cls act args kw = Returned v.
Proof.
  intros Hrun. unfold capture_errors. rewrite Hrun.
  now destruct (truthy _).
Qed.

(** C9. Each of the eight write operations runs its collection method
    through [capture_errors]: when the method raises an exception and
    the caller left [capture_errors] out (it defaults to true), the
    operation returns the string of the exception; when the caller
    passed [capture_errors=False], the operation raises that same
    exception. *)
Theorem write_captures_errors (drv : driver) (cls : model_class)
    (c : write_call) (kw : kwargs) (ex : exc) :
  _run drv cls (ByName (write_name c)) (write_args c)
    (delete "capture_errors" kw) = Raised ex ->
  (kw !! "capture_errors" = None ->
   write drv cls c kw = Returned (VStr (exc_str ex)))
  /\ (kw !! "capture_errors" = Some (VBool true) ->
      write drv cls c kw = Returned (VStr (exc_str ex)))
  /\ (kw !! "capture_errors" = Some (VBool false) ->
      write drv cls c kw = Raised ex).
Proof.
  intros Hrun. rewrite write_capture_errors. repeat split; intros Hkw.
  - apply capture_errors_caught; [now rewrite Hkw|assumption].
  - apply capture_errors_caught; [now rewrite Hkw|assumption].
  - rewrite capture_errors_off; [assumption|now rewrite Hkw].
Qed.

Lemma write_captures_errors_witness :
  write Ex.dup_driver Ex.plain_class (InsertOne (VObj "doc")) ∅
  = Returned (VStr "E11000 duplicate key error")
  /\ write Ex.dup_driver Ex.plain_class (InsertOne (VObj "doc"))
       (<["capture_errors" := VBool false]> ∅)
     = Raised Ex.duplicate_key.
Proof.
  split.
  - destruct (write_captures_errors Ex.dup_driver Ex.plain_class
                (InsertOne (VObj "doc")) ∅ Ex.duplicate_key)
      as (H & _ & _); [vm_compute; reflexivity |].
    apply H. reflexivity.
  - destruct (write_captures_errors Ex.dup_driver Ex.plain_class
                (InsertOne (VObj "doc"))
                (<["capture_errors" := VBool false]> ∅) Ex.duplicate_key)
      as (_ & _ & H); [vm_compute; reflexivity |].
    apply H. reflexivity.
Defined.

(** * Further properties *)

(** ** get_sort: errors, blanks and tokens *)

Lemma mapM_Raise {A B} (f : A -> result B) l e :
  mapM f l = Raise e -> exists x, x ∈ l /\ f x = Raise e.
Proof.
  induction l as [|x l IH]; [discriminate|].
  rewrite mapM_cons. destruct (f x) as [y|e'] eqn:Hx.
  - rewrite bind_Ok. destruct (mapM f l) as [k|e'] eqn:Hl; [discriminate|].
    rewrite bind_Raise. intros [= ->].
    destruct (IH eq_refl) as (x' & Hin & Hx'). exists x'.
    split; [now apply list_elem_of_further|assumption].
  - rewrite bind_Raise. intros [= ->]. exists x.
    split; [apply list_elem_of_here|assumption].
Qed.

Lemma parse_item_Raise names item e :
  parse_item names item = Raise e ->
  exists k, e = KeyError k /\ names !! k = None /\ Str.lower k = k.
Proof.
  unfold parse_item. destruct (Str.contains " " item) eqn:H.
  - destruct (parse_item_unpacks item H) as (f & t & ->).
    unfold lookup_direction.
    destruct (subscript_cases names (Str.lower t)) as [(d & _ & ->)|[Hn ->]].
    + discriminate.
    + rewrite bind_Raise. intros [= <-]. exists (Str.lower t).
      split; [reflexivity|]. split; [assumption|apply lower_idemp].
  - destruct (subscript_cases names "asc") as [(d & _ & ->)|[Hn ->]].
    + discriminate.
    + rewrite bind_Raise. intros [= <-]. exists "asc". now repeat split.
Qed.

(** X1. Whatever the string, [get_sort] raises nothing but the
    [KeyError] of a lower-cased direction token that the table of the
    mode does not have: the slicing and the unpacking never fail. *)
Theorem get_sort_raises_only_KeyError (s : string) (for_index : bool)
    (e : exn) :
  get_sort (ArgStr s) for_index = Raise e ->
  exists k, e = KeyError k /\ Str.lower k = k
            /\ k ∉ (direction_table for_index).*1.
Proof.
  rewrite get_sort_grammar_parse. unfold grammar_parse.
  destruct (mapM _ (Str.split ";" s)) as [parsed|e'] eqn:Hm;
    [discriminate|].
  rewrite !bind_Raise. intros [= ->].
  apply mapM_Raise in Hm as (group & _ & Hg).
  apply mapM_Raise in Hg as (item & _ & Hi).
  apply parse_item_Raise in Hi as (k & -> & Hk & Hl).
  exists k. split; [reflexivity|]. split; [assumption|].
  now apply names_for_None.
Qed.

Lemma get_sort_raises_only_KeyError_witness :
  exists k, KeyError "hashed" = KeyError k /\ Str.lower k = k
            /\ k ∉ (direction_table false).*1.
Proof.
  apply (get_sort_raises_only_KeyError "a desc; b hashed" false).
  reflexivity.
Defined.

Lemma grammar_groups_strip names s :
  mapM (fun group => mapM (parse_item names) (grammar_items group))
    (Str.split ";" (Str.strip s))
  = mapM (fun group => mapM (parse_item names) (grammar_items group))
      (Str.split ";" s).
Proof.
  set (F := fun group => mapM (parse_item names) (grammar_items group)).
  transitivity (mapM F (map Str.strip (Str.split ";" (Str.strip s)))).
  - rewrite mapM_map_result. apply mapM_ext_result. intros g. unfold F.
    now rewrite grammar_items_strip.
  - rewrite split_strip by reflexivity.
    rewrite mapM_map_result. apply mapM_ext_result. intros g. unfold F.
    now rewrite grammar_items_strip.
Qed.

(** X2. Whitespace around the whole specification does not matter. *)
Theorem get_sort_strip (s : string) (for_index : bool) :
  get_sort (ArgStr (Str.strip s)) for_index = get_sort (ArgStr s) for_index.
Proof.
  rewrite !get_sort_grammar_parse. unfold grammar_parse.
  now rewrite grammar_groups_strip.
Qed.

(** X3. An item made of a field, one or two spaces, a token of the
    table in any case and, possibly, further tokens after a space
    gives the field with the direction of the token: what follows the
    second token is ignored. *)
Theorem item_first_two_tokens (for_index : bool)
    (field sep tok rest : string) (d : direction) :
  Str.contains " " field = false ->
  Str.contains " " tok = false -> tok <> "" ->
  sep = " " \/ sep = "  " ->
  rest = "" \/ (exists r, rest = String " " r) ->
  (Str.lower tok, d) ∈ direction_table for_index ->
  parse_item (names_for for_index) (field +:+ sep +:+ tok +:+ rest)
  = Ok (field, d).
Proof.
  intros Hf Ht Hne Hsep Hrest Hd.
  rewrite parse_item_tokens by assumption.
  apply lookup_direction_Ok in Hd. now rewrite Hd.
Qed.

Lemma item_first_two_tokens_witness :
  parse_item (names_for false) ("age" +:+ "  " +:+ "DESC" +:+ " nulls last")
  = Ok ("age", DESCENDING).
Proof.
  apply item_first_two_tokens.
  - reflexivity.
  - reflexivity.
  - discriminate.
  - now right.
  - right. now exists "nulls last".
  - unfold direction_table. cbn. repeat constructor.
Defined.

(** X4. Three spaces after the field always fail: whatever follows,
    the second piece of the split is empty and its lookup raises
    [KeyError] of the empty string. *)
Theorem item_three_spaces (for_index : bool) (field rest : string) :
  Str.contains " " field = false ->
  parse_item (names_for for_index) (field +:+ "   " +:+ rest)
  = Raise (KeyError "").
Proof.
  intros Hf. unfold parse_item.
  rewrite contains_app. simpl Str.contains at 2. rewrite orb_true_r.
  rewrite replace_2sp_app_nospace by assumption.
  change ("   " +:+ rest) with (String " " (String " " (String " " rest))).
  rewrite replace_2sp_two_spaces.
  destruct (replace_2sp_space_head rest) as [w ->].
  rewrite split_app_sep by assumption.
  simpl. now destruct for_index.
Qed.

Lemma item_three_spaces_witness :
  parse_item (names_for true) ("age" +:+ "   " +:+ "desc") = Raise (KeyError "").
Proof. apply item_three_spaces. reflexivity. Defined.

Section blank.
Import Str.

Lemma all_space_lstrip w :
  any (fun c => negb (isspace c)) w = false -> lstrip w = "".
Proof.
  induction w as [|c w IH]; [reflexivity|].
  simpl. intros H. apply orb_false_elim in H as [Hc Hw].
  apply negb_false_iff in Hc. rewrite Hc. now apply IH.
Qed.

Lemma all_space_strip w :
  any (fun c => negb (isspace c)) w = false -> strip w = "".
Proof. intros H. unfold strip. now rewrite all_space_lstrip. Qed.

(** The pieces of a string of [q]-characters, all of them [p] or the
    separator, are strings of [p]-characters. *)
Lemma split_all (p q : ascii -> bool) sep s :
  (forall c, q c = true -> Ascii.eqb c sep = false -> p c = true) ->
  any (fun c => negb (q c)) s = false ->
  Forall (fun w => any (fun c => negb (p c)) w = false) (split sep s).
Proof.
  intros Hpq. induction s as [|c s IH]; intros H.
  - repeat constructor.
  - simpl in H. apply orb_false_elim in H as [Hc Hs].
    apply negb_false_iff in Hc. specialize (IH Hs).
    simpl split. destruct (Ascii.eqb c sep) eqn:E.
    + now constructor.
    + destruct (split sep s) as [|w ws]; [repeat constructor|].
      * simpl. now rewrite (Hpq c Hc E).
      * inversion IH as [|? ? Hw Hws]; subst. constructor; [|assumption].
        simpl. now rewrite (Hpq c Hc E), Hw.
Qed.

Lemma blank_group_items group :
  any (fun c => negb (isspace c || Ascii.eqb c ",")) group = false ->
  grammar_items group = [].
Proof.
  intros H. unfold grammar_items.
  apply (split_all isspace _ ",") in H.
  - induction H as [|w ws Hw _ IH]; [reflexivity|].
    simpl. now rewrite (all_space_strip w Hw).
  - intros c Hc E. rewrite E, orb_false_r in Hc. exact Hc.
Qed.

Lemma blank_groups names groups :
  Forall (fun g => grammar_items g = []) groups ->
  exists parsed,
    mapM (fun group => mapM (parse_item names) (grammar_items group)) groups
    = Ok parsed /\ List.filter nonnil parsed = [].
Proof.
  induction 1 as [|g groups Hg _ (parsed & Hp & Hf)].
  - now exists [].
  - exists ([] :: parsed). rewrite mapM_cons, Hg, Hp. now split.
Qed.

End blank.

(** X5. A specification made of nothing but whitespace, commas and
    semicolons (the empty string among them) gives the empty list, not
    [None]. *)
Theorem get_sort_blank (s : string) (for_index : bool) :
  Str.any (fun c => negb (Str.isspace c || Ascii.eqb c "," || Ascii.eqb c ";"))
    s = false ->
  get_sort (ArgStr s) for_index = Ok (RetMany []).
Proof.
  intros H. rewrite get_sort_grammar_parse. unfold grammar_parse.
  apply (split_all (fun c => Str.isspace c || Ascii.eqb c ",") _ ";") in H.
  - destruct (blank_groups (names_for for_index) (Str.split ";" s))
      as (parsed & -> & Hf).
    + eapply Forall_impl; [exact H|]. intros g Hg. now apply blank_group_items.
    + rewrite bind_Ok. unfold mret, result_ret. rewrite bind_Ok. now rewrite Hf.
  - intros c Hc E. rewrite E, orb_false_r in Hc. exact Hc.
Qed.

Lemma get_sort_blank_witness :
  get_sort (ArgStr " ; , ,; ") true = Ok (RetMany []).
Proof. apply get_sort_blank. reflexivity. Defined.

(** ** get_uniq_spec and is_unique *)

Section uniq_more.
Context {V : Type}.
Implicit Types (doc spec dbdoc : gmap string V) (fields : list string).

Lemma group_spec_subseteq doc field : group_spec doc field ⊆ doc.
Proof.
  apply map_subseteq_spec. intros k v. rewrite group_spec_lookup.
  now destruct (bool_decide (k ∈ group_keys field)).
Qed.

Lemma get_uniq_spec_None fields doc :
  get_uniq_spec fields doc = None
  <-> forall field k, field ∈ fields -> k ∈ group_keys field -> doc !! k = None.
Proof.
  rewrite get_uniq_spec_filter. split.
  - intros H field k Hf Hk.
    destruct (doc !! k) as [v|] eqn:Hd; [|reflexivity].
    assert (Hin : In (group_spec doc field)
                    (List.filter dict_truthy (map (group_spec doc) fields))).
    { apply filter_In. split.
      - apply in_map. now apply list_elem_of_In.
      - apply group_contributes. exists k. split; [assumption|]. now exists v. }
    destruct (List.filter _ _); [destruct Hin|discriminate].
  - intros H. destruct (List.filter _ _) as [|s0 l] eqn:E; [reflexivity|].
    assert (Hin : In s0 (List.filter dict_truthy (map (group_spec doc) fields)))
      by (rewrite E; now left).
    apply filter_In in Hin as [Hin Ht].
    apply in_map_iff in Hin as (field & <- & Hin).
    apply group_contributes in Ht as (k & Hk & [v Hv]).
    rewrite (H field k) in Hv; [discriminate| |assumption].
    now apply list_elem_of_In.
Qed.

(** X6. Every sub-filter of the result is a part of the candidate: it
    asks only for values the candidate itself has. *)
Theorem get_uniq_spec_submaps fields doc (specs : list (gmap string V)) :
  get_uniq_spec fields doc = Some (Or specs) ->
  Forall (fun spec => spec ⊆ doc) specs.
Proof.
  rewrite get_uniq_spec_filter.
  destruct (List.filter _ _) as [|s0 l] eqn:E; [discriminate|].
  intros [= <-]. rewrite <- E. apply List.Forall_forall. intros spec Hin.
  apply filter_In in Hin as [Hin _].
  apply in_map_iff in Hin as (field & <- & _). apply group_spec_subseteq.
Qed.

(** X7. Only the set of field names of a group counts: their order,
    repetitions and the whitespace around them change nothing. *)
Theorem get_uniq_spec_same_keys fields1 fields2 doc :
  Forall2 (fun f1 f2 => forall k, k ∈ group_keys f1 <-> k ∈ group_keys f2)
    fields1 fields2 ->
  get_uniq_spec fields1 doc = get_uniq_spec fields2 doc.
Proof.
  intros H. rewrite !get_uniq_spec_filter.
  assert (E : map (group_spec doc) fields1 = map (group_spec doc) fields2).
  { induction H as [|f1 f2 l1 l2 Hf _ IH]; [reflexivity|].
    simpl. rewrite IH. f_equal. apply map_eq. intros k.
    rewrite !group_spec_lookup.
    now rewrite (bool_decide_ext _ _ (Hf k)). }
  now rewrite E.
Qed.

(** X8. When the candidate has none of the fields to check,
    [is_unique] answers [True] whatever is in the database, and
    leaves [dbdoc] alone. *)
Theorem is_unique_nothing_to_check (id_truthy : V -> bool)
    (find_one : uniq_query -> found) (own : option (list string))
    fields doc (id : option V) dbdoc :
  (forall field k,
      field ∈ (match fields with [] => default [] own | _ => fields end) ->
      k ∈ group_keys field -> doc !! k = None) ->
  is_unique id_truthy find_one own fields doc id dbdoc
  = UniqReturned true dbdoc.
Proof.
  intros H. apply get_uniq_spec_None in H.
  unfold is_unique, cls_get_uniq_spec. now rewrite H.
Qed.

(** X9. [is_unique] answers [False] only when the database returned a
    document for the query of the present fields, and [dbdoc] then has
    every entry of that document; when it answers [True], [dbdoc] is
    as it was. *)
Theorem is_unique_dbdoc (id_truthy : V -> bool)
    (find_one : uniq_query -> found) (own : option (list string))
    fields doc (id : option V) dbdoc (unique : bool) dbdoc' :
  is_unique id_truthy find_one own fields doc id dbdoc
  = UniqReturned unique dbdoc' ->
  if unique then dbdoc' = dbdoc
  else exists specs q d,
      cls_get_uniq_spec own fields doc = Some (Or specs)
      /\ query_or q = specs
      /\ find_one q = FoundDoc d /\ d <> ∅ /\ d ⊆ dbdoc'
      /\ forall k, d !! k = None -> dbdoc' !! k = dbdoc !! k.
Proof.
  unfold is_unique.
  destruct (cls_get_uniq_spec own fields doc) as [[specs]|] eqn:Hs.
  - match goal with |- context [find_one ?q] => set (q0 := q) end.
    destruct (find_one q0) as [d| |ex] eqn:Hf.
    + destruct (dict_truthy d) eqn:Ht.
      * intros [= <- <-]. exists specs, q0, d.
        split; [reflexivity|]. split; [reflexivity|]. split; [assumption|].
        split.
        { intros ->. apply dict_truthy_spec in Ht as [k [v Hk]].
          now rewrite lookup_empty in Hk. }
        split; [apply map_union_subseteq_l|].
        intros k Hk. now apply lookup_union_r.
      * now intros [= <- <-].
    + now intros [= <- <-].
    + discriminate.
  - now intros [= <- <-].
Qed.

End uniq_more.

Lemma get_uniq_spec_submaps_witness :
  Forall (fun spec => spec ⊆ Ex.candidate)
    [ ({["email" := VStr "x@y.com"]} : gmap string pyval);
      {["tenant_id" := VStr "t1"]} ].
Proof.
  apply (get_uniq_spec_submaps ["email"; "username,tenant_id"]).
  reflexivity.
Defined.

Lemma get_uniq_spec_same_keys_witness :
  get_uniq_spec [" tenant_id ,email,email"] Ex.candidate
  = get_uniq_spec ["email,tenant_id"] Ex.candidate.
Proof.
  apply get_uniq_spec_same_keys. constructor; [|constructor].
  intros k. change (group_keys " tenant_id ,email,email")
    with ["tenant_id"; "email"; "email"].
  change (group_keys "email,tenant_id") with ["email"; "tenant_id"].
  rewrite !elem_of_cons, elem_of_nil. tauto.
Defined.

Lemma is_unique_nothing_to_check_witness :
  is_unique truthy Ex2.find_stored (Some ["username"]) [] Ex.candidate
    (Some (VInt 7)) ∅
  = UniqReturned true ∅.
Proof.
  apply is_unique_nothing_to_check. intros field k Hf Hk.
  apply list_elem_of_In in Hf. destruct Hf as [<-|[]].
  apply list_elem_of_In in Hk. destruct Hk as [<-|[]]. reflexivity.
Defined.

Lemma is_unique_dbdoc_witness :
  exists specs q d,
    cls_get_uniq_spec None ["email"] Ex.candidate = Some (Or specs)
    /\ query_or q = specs
    /\ Ex2.find_stored q = FoundDoc d /\ d <> ∅ /\ d ⊆ Ex2.stored
    /\ forall k, d !! k = None ->
                 Ex2.stored !! k = (∅ : gmap string pyval) !! k.
Proof.
  apply (is_unique_dbdoc truthy Ex2.find_stored None ["email"] Ex.candidate
           None ∅ false Ex2.stored).
  vm_compute. reflexivity.
Defined.

(** ** to_dict, __init__ and item assignment *)

Lemma update_lookup (extras d : gmap string pyval) k :
  (extras ∪ d) !! k
  = match extras !! k with Some x => Some x | None => d !! k end.
Proof.
  destruct (extras !! k) as [x|] eqn:He.
  - now apply lookup_union_Some_l.
  - now apply lookup_union_r.
Qed.

(** X10. [to_dict] layers its sources: an entry of [extras] hides the
    instance's, the instance's hides the class default (looked at only
    with [include_defaults]); a non-empty [onlys] keeps exactly its
    keys and makes [excludes] irrelevant, an empty one drops the keys
    of [excludes]. *)
Theorem to_dict_lookup (include_defaults : bool) (extras : gmap string pyval)
    (excludes onlys : list string) (self : instance) (k : string) (v : pyval) :
  fst (to_dict include_defaults extras excludes onlys self) !! k = Some v
  <-> match onlys with [] => k ∉ excludes | _ => k ∈ onlys end
      /\ match extras !! k with
         | Some x => Some x
         | None =>
             match inst_dict self !! k with
             | Some x => Some x
             | None =>
                 if include_defaults
                 then get_all_defaults (inst_mro self) !! k
                 else None
             end
         end = Some v.
Proof.
  unfold to_dict. cbn [fst].
  set (d := if include_defaults then _ else _).
  assert (Hd : d !! k = match inst_dict self !! k with
                        | Some x => Some x
                        | None => if include_defaults
                                  then get_all_defaults (inst_mro self) !! k
                                  else None
                        end).
  { unfold d. destruct include_defaults.
    - apply setdefault_items_lookup.
    - now destruct (inst_dict self !! k). }
  rewrite <- Hd, <- update_lookup.
  destruct onlys as [|o onlys]; rewrite map_lookup_filter_Some; simpl; tauto.
Qed.

Lemma to_dict_default_lookup (self : instance) (k : string) :
  fst (to_dict true ∅ [] [] self) !! k
  = match inst_dict self !! k with
    | Some x => Some x
    | None => get_all_defaults (inst_mro self) !! k
    end.
Proof.
  unfold to_dict. cbn [fst]. apply option_eq. intros v.
  rewrite map_lookup_filter_Some, update_lookup, lookup_empty.
  rewrite setdefault_items_lookup. simpl. split; [tauto|].
  intros H. split; [assumption|apply not_elem_of_nil].
Qed.

(** X11. With its default arguments [to_dict] agrees with item
    access: a key it has gives the same value as [self[key]], and a
    key it lacks gives [None] there. *)
Theorem to_dict_getitem (self : instance) (k : string) :
  fst (__getitem__ k self)
  = default VNone (fst (to_dict true ∅ [] [] self) !! k).
Proof.
  rewrite to_dict_default_lookup. unfold __getitem__. simpl.
  rewrite mro_default_all_defaults.
  now destruct (inst_dict self !! k).
Qed.

(** X12. Item assignment and item access: after [self[k] = v],
    [self[k]] is [v] whatever the class declares, every other key
    reads as before, and the classes are the same; a fresh instance
    reads its keyword arguments and, for the rest, the defaults. *)
Theorem setitem_getitem (self : instance) (k : string) (v : pyval) :
  fst (__getitem__ k (snd (__setitem__ k v self))) = v
  /\ (forall k', k' <> k ->
        fst (__getitem__ k' (snd (__setitem__ k v self)))
        = fst (__getitem__ k' self))
  /\ inst_mro (snd (__setitem__ k v self)) = inst_mro self
  /\ (forall mro kw k',
        fst (__getitem__ k' (__init__ mro kw))
        = default (mro_default mro k') (kw !! k')).
Proof.
  unfold __getitem__, __setitem__, __init__. simpl.
  split; [now rewrite lookup_insert_eq|].
  split; [intros k' Hne; now rewrite lookup_insert_ne by congruence|].
  split; [reflexivity|].
  intros mro kw k'. now rewrite update_lookup, lookup_empty; destruct (kw !! k').
Qed.

Lemma setitem_getitem_witness :
  fst (__getitem__ "level" (snd (__setitem__ "kind" (VStr "own") Ex.leaf)))
  = fst (__getitem__ "level" Ex.leaf).
Proof.
  apply (proj1 (proj2 (setitem_getitem Ex.leaf "kind" (VStr "own")))).
  discriminate.
Defined.

(** ** get_class_attr and the ancestry *)

Lemma get_class_attr_data mro name data j :
  get_class_attr mro name true data !! j
  = match data !! j with
    | Some x => Some x
    | None => get_class_attr mro name true ∅ !! j
    end.
Proof.
  revert data. induction mro as [|kls rest IH]; intros data.
  - simpl. rewrite lookup_empty. now destruct (data !! j).
  - rewrite !get_class_attr_cons.
    match goal with
    | |- get_class_attr _ _ _ ?d1 !! _
         = match _ with
           | Some _ => _
           | None => get_class_attr _ _ _ ?d2 !! _
           end => rewrite (IH d1), (IH d2)
    end.
    rewrite !class_step_lookup, lookup_empty.
    destruct (data !! j); [reflexivity|]. now destruct (own_attr kls name j).
Qed.

(** X13. The defaults of a class are its own default map laid over
    the defaults of the rest of its ancestry. *)
Theorem get_all_defaults_cons (kls : klass) (rest : list klass) :
  get_all_defaults (kls :: rest)
  = default ∅ (cls_dict kls !! "__default_values__") ∪ get_all_defaults rest.
Proof.
  apply map_eq. intros j. unfold get_all_defaults.
  rewrite get_class_attr_cons, get_class_attr_data, class_step_lookup.
  rewrite lookup_empty. unfold own_attr.
  destruct (default ∅ (cls_dict kls !! "__default_values__") !! j) as [x|] eqn:E.
  - symmetry. now apply lookup_union_Some_l.
  - symmetry. now apply lookup_union_r.
Qed.

(** X14. A key has a default exactly when some class of the ancestry
    declares it in its own default map. *)
Theorem get_all_defaults_declared (mro : list klass) (key : string) :
  is_Some (get_all_defaults mro !! key)
  <-> Exists (fun kls => is_Some (own_default kls key)) mro.
Proof.
  unfold get_all_defaults. induction mro as [|kls rest IH].
  - simpl. rewrite lookup_empty, Exists_nil.
    split; [intros [x Hx]; discriminate|tauto].
  - rewrite get_class_attr_cons, get_class_attr_data, class_step_lookup.
    rewrite lookup_empty, Exists_cons, <- IH. unfold own_default.
    destruct (own_attr kls "__default_values__" key) as [x|].
    + split; eauto.
    + split; [now right|].
      intros [[x Hx]|H]; [discriminate|assumption].
Qed.

(** X15. With [include_parents=False] only the own entry of the class
    counts: the result is that map, or empty, whatever the ancestors
    declare. *)
Theorem get_class_attr_own (kls : klass) (rest : list klass) (name : string) :
  get_class_attr (kls :: rest) name false ∅ = default ∅ (cls_dict kls !! name).
Proof.
  simpl. destruct (cls_dict kls !! name) as [d|]; [|reflexivity].
  apply map_eq. intros j. rewrite setdefault_items_lookup, lookup_empty.
  reflexivity.
Qed.

(** ** get_page_args *)

Section page_props.
Context {V : Type}.
Variable value_truthy : V -> bool.
Variable value_int : V -> option Z.

Lemma page_or_request_truthy_int request_get (kw : gmap string V) name dflt z :
  (forall v, value_truthy v = true -> value_int v <> Some 0%Z) ->
  page_truthy value_truthy (page_or_request value_truthy request_get kw name dflt)
  = true ->
  page_int value_int (page_or_request value_truthy request_get kw name dflt)
  = Some z ->
  z <> 0%Z.
Proof.
  intros Hint. unfold page_or_request.
  destruct (kw !! name) as [v|]; [destruct (value_truthy v) eqn:Hv|];
    simpl.
  - rewrite Hv. intros _ Hz ->. now apply (Hint v).
  - intros Ht [= <-]. apply negb_true_iff in Ht. now apply Z.eqb_neq.
  - intros Ht [= <-]. apply negb_true_iff in Ht. now apply Z.eqb_neq.
Qed.

(** X16. Whenever [get_page_args] returns, the third number is
    [per_page * (page - 1)].  When [int] of a true keyword value is
    never zero (as for integers), the page is zero exactly when the
    page size is; without that (a float below one, the string "0") a
    zero page comes with a non-zero page size. *)
Theorem get_page_args_skip (request_get : string -> Z -> Z)
    (page_name per_page_name : option string) (kw : gmap string V)
    (page per_page skip : Z) :
  get_page_args value_truthy value_int request_get page_name per_page_name kw
  = PageArgs page per_page skip ->
  (skip = per_page * (page - 1))%Z
  /\ ((forall v, value_truthy v = true -> value_int v <> Some 0%Z) ->
      (page = 0%Z <-> per_page = 0%Z)).
Proof.
  unfold get_page_args.
  destruct page_name as [pn|], per_page_name as [ppn|];
    try (intros [= <- <- <-]; split; [reflexivity|tauto]).
  destruct (Str.nonempty pn && Str.nonempty ppn);
    [|intros [= <- <- <-]; split; [reflexivity|tauto]].
  destruct (page_truthy value_truthy
              (page_or_request value_truthy request_get kw pn 1)) eqn:Hp;
    [|intros [= <- <- <-]; split; [reflexivity|tauto]].
  destruct (page_truthy value_truthy
              (page_or_request value_truthy request_get kw ppn 10)) eqn:Hn;
    [|intros [= <- <- <-]; split; [reflexivity|tauto]].
  simpl andb. cbv iota.
  destruct (page_int value_int _) as [p|] eqn:Ep; [|discriminate].
  destruct (page_int value_int
              (page_or_request value_truthy request_get kw ppn 10))
    as [n|] eqn:En; [|discriminate].
  intros [= <- <- <-]. split; [reflexivity|]. intros Hint.
  pose proof (page_or_request_truthy_int _ _ _ _ _ Hint Hp Ep).
  pose proof (page_or_request_truthy_int _ _ _ _ _ Hint Hn En).
  tauto.
Qed.

(** X17. With both names non-empty and a true keyword value for
    [per_page] that [int] accepts: a true keyword value for [page] is
    converted by [int] and the request is not consulted (so a value
    that [int] takes to zero gives page 0 and a negative skip, and one
    that [int] refuses raises); a false one counts as not given, and
    the value of the request is used. *)
Theorem get_page_args_keywords (request_get : string -> Z -> Z)
    (pn ppn : string) (kw : gmap string V) (p n : V) (zn : Z) :
  pn <> "" -> ppn <> "" ->
  kw !! pn = Some p -> kw !! ppn = Some n ->
  value_truthy n = true -> value_int n = Some zn ->
  (value_truthy p = true ->
   get_page_args value_truthy value_int request_get (Some pn) (Some ppn) kw
   = match value_int p with
     | Some zp => PageArgs zp zn (zn * (zp - 1))%Z
     | None => PageRaised
     end)
  /\ (value_truthy p = false -> request_get pn 1%Z <> 0%Z ->
      get_page_args value_truthy value_int request_get (Some pn) (Some ppn) kw
      = PageArgs (request_get pn 1%Z) zn (zn * (request_get pn 1 - 1))%Z).
Proof.
  intros Hpn Hppn Hp Hn Htn Hzn. unfold get_page_args.
  assert (E : Str.nonempty pn && Str.nonempty ppn = true).
  { destruct pn; [congruence|]. now destruct ppn. }
  rewrite E. unfold page_or_request. rewrite Hp, Hn, Htn. split.
  - intros Htp. rewrite Htp. simpl. rewrite Htp, Htn, Hzn. simpl.
    now destruct (value_int p).
  - intros Htp Hr. rewrite Htp. simpl. rewrite Htn, Hzn.
    apply Z.eqb_neq in Hr. now rewrite Hr.
Qed.

End page_props.

Lemma get_page_args_skip_witness :
  (100 = 50 * (3 - 1))%Z /\ (3%Z = 0%Z <-> 50%Z = 0%Z).
Proof.
  destruct (get_page_args_skip
              (fun z : Z => negb (Z.eqb z 0)) (fun z : Z => Some z)
              Ex2.request_page3 (Some "page") (Some "per_page")
              (<["per_page" := 50%Z]> ∅) 3 50 100) as [H1 H2];
    [vm_compute; reflexivity|].
  split; [exact H1|]. apply H2.
  intros v Hv [= ->]. discriminate.
Defined.

Lemma get_page_args_keywords_witness :
  get_page_args Ex2.pagearg_truthy Ex2.pagearg_int Ex2.request_page3
    (Some "page") (Some "per_page")
    (<["page" := Ex2.PInt 2]> (<["per_page" := Ex2.PInt 50]> ∅))
  = PageArgs 2 50 50
  /\ get_page_args Ex2.pagearg_truthy Ex2.pagearg_int Ex2.request_page3
       (Some "page") (Some "per_page")
       (<["page" := Ex2.PHalf]> (<["per_page" := Ex2.PInt 10]> ∅))
     = PageArgs 0 10 (-10)
  /\ get_page_args Ex2.pagearg_truthy Ex2.pagearg_int Ex2.request_page3
       (Some "page") (Some "per_page")
       (<["page" := Ex2.PBad]> (<["per_page" := Ex2.PInt 10]> ∅))
     = PageRaised
  /\ get_page_args Ex2.pagearg_truthy Ex2.pagearg_int Ex2.request_page3
       (Some "page") (Some "per_page")
       (<["page" := Ex2.PInt 0]> (<["per_page" := Ex2.PInt 50]> ∅))
     = PageArgs 3 50 100.
Proof.
  split; [|split; [|split]].
  - destruct (get_page_args_keywords Ex2.pagearg_truthy Ex2.pagearg_int
                Ex2.request_page3 "page" "per_page"
                (<["page" := Ex2.PInt 2]> (<["per_page" := Ex2.PInt 50]> ∅))
                (Ex2.PInt 2) (Ex2.PInt 50) 50) as [H _];
      [discriminate | discriminate | vm_compute; reflexivity
      | vm_compute; reflexivity | reflexivity | reflexivity |].
    apply H. reflexivity.
  - destruct (get_page_args_keywords Ex2.pagearg_truthy Ex2.pagearg_int
                Ex2.request_page3 "page" "per_page"
                (<["page" := Ex2.PHalf]> (<["per_page" := Ex2.PInt 10]> ∅))
                Ex2.PHalf (Ex2.PInt 10) 10) as [H _];
      [discriminate | discriminate | vm_compute; reflexivity
      | vm_compute; reflexivity | reflexivity | reflexivity |].
    apply H. reflexivity.
  - destruct (get_page_args_keywords Ex2.pagearg_truthy Ex2.pagearg_int
                Ex2.request_page3 "page" "per_page"
                (<["page" := Ex2.PBad]> (<["per_page" := Ex2.PInt 10]> ∅))
                Ex2.PBad (Ex2.PInt 10) 10) as [H _];
      [discriminate | discriminate | vm_compute; reflexivity
      | vm_compute; reflexivity | reflexivity | reflexivity |].
    apply H. reflexivity.
  - destruct (get_page_args_keywords Ex2.pagearg_truthy Ex2.pagearg_int
                Ex2.request_page3 "page" "per_page"
                (<["page" := Ex2.PInt 0]> (<["per_page" := Ex2.PInt 50]> ∅))
                (Ex2.PInt 0) (Ex2.PInt 50) 50) as [_ H];
      [discriminate | discriminate | vm_compute; reflexivity
      | vm_compute; reflexivity | reflexivity | reflexivity |].
    apply H; [reflexivity|discriminate].
Defined.

(** ** clean_for_dirty and get_fresh *)

Section dirty_props.
Context {V : Type}.
Variable py_eq : V -> V -> bool.
Variable py_none : V.
Implicit Types (self_dict doc cleaned new_dict old_dict : gmap string V).

Lemma clean_loop_None self_dict doc ks cleaned :
  clean_loop py_eq py_none self_dict doc ks cleaned = None <-> "_id" ∈ ks.
Proof.
  revert cleaned. induction ks as [|k ks IH]; intros cleaned.
  - simpl. rewrite elem_of_nil. split; [discriminate|tauto].
  - simpl. rewrite elem_of_cons. destruct (String.eqb_spec k "_id") as [->|Hne].
    + split; [now left|reflexivity].
    + rewrite IH. split; [now right|]. intros [H|H]; [congruence|assumption].
Qed.

Lemma clean_loop_lookup self_dict doc ks cleaned c k v :
  clean_loop py_eq py_none self_dict doc ks cleaned = Some c ->
  (c !! k = Some v
   <-> (k ∈ ks /\ doc !! k = Some v
        /\ py_eq (default py_none (self_dict !! k)) v = false)
       \/ (~ (k ∈ ks /\ exists w, doc !! k = Some w
               /\ py_eq (default py_none (self_dict !! k)) w = false)
           /\ cleaned !! k = Some v)).
Proof.
  revert cleaned. induction ks as [|a ks IH]; intros cleaned.
  - simpl. intros [= <-]. rewrite elem_of_nil. split; [|tauto].
    intros H. right. split; [tauto|assumption].
  - simpl. destruct (String.eqb a "_id"); [discriminate|].
    intros H. rewrite (IH _ H). clear IH H. rewrite !elem_of_cons.
    destruct (decide (k = a)) as [->|Hne].
    + destruct (doc !! a) as [w|] eqn:Hd.
      * destruct (py_eq (default py_none (self_dict !! a)) w) eqn:He; simpl.
        -- split.
           ++ intros [(Hin & [= <-] & Hv)|(Hn & Hc)]; [congruence|].
              right. split; [|assumption].
              intros ([_|Hin] & w' & [= <-] & Hw); congruence.
           ++ intros [(_ & [= <-] & Hv)|(Hn & Hc)]; [congruence|].
              right. split; [|assumption].
              intros (Hin & w' & [= <-] & Hw). congruence.
        -- rewrite lookup_insert_eq. split.
           ++ intros [(Hin & [= <-] & Hv)|(Hn & [= <-])];
                left; (split; [now left|now split]).
           ++ intros [(_ & [= <-] & Hv)|(Hn & Hc)].
              ** destruct (decide (a ∈ ks)) as [Hin|Hnin].
                 --- left. now repeat split.
                 --- right. split; [tauto|reflexivity].
              ** exfalso. apply Hn. split; [now left|]. now exists w.
      * split.
        -- intros [(_ & [=] & _)|(Hn & Hc)]. right. split; [|assumption].
           intros (_ & w' & [=] & _).
        -- intros [(_ & [=] & _)|(Hn & Hc)]. right. split; [|assumption].
           intros (_ & w' & [=] & _).
    + assert (E : match doc !! a with
                  | Some v0 =>
                      if negb (py_eq (default py_none (self_dict !! a)) v0)
                      then <[a := v0]> cleaned else cleaned
                  | None => cleaned
                  end !! k = cleaned !! k).
      { destruct (doc !! a); [|reflexivity].
        destruct (negb _); [|reflexivity].
        now rewrite lookup_insert_ne by congruence. }
      rewrite E. clear E. split.
      * intros [(Hin & Hd & Hv)|(Hn & Hc)].
        -- left. split; [now right|now split].
        -- right. split; [|assumption].
           intros ([Hk|Hin] & Hw); [congruence|]. apply Hn. now split.
      * intros [([Hk|Hin] & Hd & Hv)|(Hn & Hc)]; [congruence| |].
        -- left. now repeat split.
        -- right. split; [|assumption]. intros (Hin & Hw).
           apply Hn. split; [now right|assumption].
Qed.

(** X18. [clean_for_dirty] gives [None], not a dictionary, exactly
    when ["_id"] is among the keys it goes through: among [keys] when
    they are given, and, when they are not, in the document. *)
Theorem clean_for_dirty_id self_dict doc (keys : list string) :
  (keys <> [] ->
   (clean_for_dirty py_eq py_none self_dict doc keys = None
    <-> "_id" ∈ keys))
  /\ (clean_for_dirty py_eq py_none self_dict doc [] = None
      <-> is_Some (doc !! "_id")).
Proof.
  unfold clean_for_dirty. split.
  - intros Hne. destruct keys; [congruence|]. apply clean_loop_None.
  - rewrite clean_loop_None, list_elem_of_fmap. split.
    + intros ([k v] & -> & H). apply elem_of_map_to_list in H. now exists v.
    + intros [v Hv]. exists ("_id", v). split; [reflexivity|].
      now apply elem_of_map_to_list.
Qed.

(** X19. When it gives a dictionary, that dictionary has exactly the
    entries of [doc], among the keys gone through, whose value differs
    from what the instance has ([None] standing for a key the instance
    lacks). *)
Theorem clean_for_dirty_changed self_dict doc (keys : list string)
    (cleaned : gmap string V) (k : string) (v : V) :
  clean_for_dirty py_eq py_none self_dict doc keys = Some cleaned ->
  (cleaned !! k = Some v
   <-> match keys with [] => True | _ => k ∈ keys end
       /\ doc !! k = Some v
       /\ py_eq (default py_none (self_dict !! k)) v = false).
Proof.
  unfold clean_for_dirty. intros H.
  rewrite (clean_loop_lookup _ _ _ _ _ k v H), lookup_empty.
  destruct keys as [|a keys].
  - split.
    + intros [(_ & Hd & Hv)|(_ & [=])]. now repeat split.
    + intros (_ & Hd & Hv). left. split; [|now split].
      apply list_elem_of_fmap. exists (k, v). split; [reflexivity|].
      now apply elem_of_map_to_list.
  - split.
    + intros [H'|(_ & [=])]. exact H'.
    + intros H'. now left.
Qed.

End dirty_props.

Section fresh_props.
Context {V : Type}.
Variable py_eq : V -> V -> bool.
Implicit Types (new_dict old_dict : gmap string V).

Lemma is_fresh_lookup new_dict old_dict k v :
  get_fresh py_eq new_dict old_dict !! k = Some v
  <-> new_dict !! k = Some v /\ is_fresh py_eq old_dict k v = true.
Proof. unfold get_fresh. now rewrite map_lookup_filter_Some. Qed.

(** X20. [get_fresh] is a part of the new dictionary, and laying it
    over the old one gives, for every key of the new one, the new
    value or an old value equal to it. *)
Theorem get_fresh_patch new_dict old_dict :
  get_fresh py_eq new_dict old_dict ⊆ new_dict
  /\ forall k v, new_dict !! k = Some v ->
       exists v', (get_fresh py_eq new_dict old_dict ∪ old_dict) !! k = Some v'
                  /\ (v' = v \/ py_eq v v' = true).
Proof.
  split.
  - apply map_subseteq_spec. intros k v H. now apply is_fresh_lookup in H.
  - intros k v Hk. destruct (is_fresh py_eq old_dict k v) eqn:Hf.
    + exists v. split; [|now left].
      apply lookup_union_Some_l. now apply is_fresh_lookup.
    + unfold is_fresh in Hf. destruct (old_dict !! k) as [o|] eqn:Ho;
        [|discriminate].
      exists o. split.
      * rewrite lookup_union_r; [assumption|].
        apply eq_None_not_Some. intros [x Hx].
        apply is_fresh_lookup in Hx as [Hx1 Hx2].
        unfold is_fresh in Hx2. rewrite Ho in Hx2. congruence.
      * right. now apply negb_false_iff in Hf.
Qed.

(** X21. Against an empty old dictionary everything is fresh; against
    itself nothing is, provided [==] holds between each value and
    itself. *)
Theorem get_fresh_ends (d : gmap string V) :
  get_fresh py_eq d ∅ = d
  /\ ((forall k v, d !! k = Some v -> py_eq v v = true) ->
      get_fresh py_eq d d = ∅).
Proof.
  split.
  - apply map_eq. intros k. apply option_eq. intros v.
    rewrite is_fresh_lookup. unfold is_fresh. rewrite lookup_empty. tauto.
  - intros Hrefl. apply map_eq. intros k. rewrite lookup_empty.
    apply eq_None_not_Some. intros [v Hv].
    apply is_fresh_lookup in Hv as [Hk Hf]. unfold is_fresh in Hf.
    rewrite Hk in Hf. rewrite (Hrefl k v Hk) in Hf. discriminate.
Qed.

End fresh_props.

Lemma clean_for_dirty_id_witness :
  clean_for_dirty Ex2.pyval_eq VNone Ex2.have Ex2.stored [] = None
  /\ clean_for_dirty Ex2.pyval_eq VNone Ex2.have Ex2.sent ["age"; "_id"] = None.
Proof.
  split.
  - apply (proj2 (clean_for_dirty_id Ex2.pyval_eq VNone Ex2.have Ex2.stored [])).
    now exists (VInt 7).
  - apply (proj1 (clean_for_dirty_id Ex2.pyval_eq VNone Ex2.have Ex2.sent
                    ["age"; "_id"]) ltac:(discriminate)).
    repeat constructor.
Defined.

Lemma clean_for_dirty_changed_witness :
  ({["age" := VInt 31]} ∪ {["city" := VStr "Oslo"]} : gmap string pyval)
    !! "age" = Some (VInt 31)
  <-> True /\ Ex2.sent !! "age" = Some (VInt 31)
      /\ Ex2.pyval_eq (default VNone (Ex2.have !! "age")) (VInt 31) = false.
Proof.
  apply (clean_for_dirty_changed Ex2.pyval_eq VNone Ex2.have Ex2.sent []
           ({["age" := VInt 31]} ∪ {["city" := VStr "Oslo"]}) "age" (VInt 31)).
  vm_compute. reflexivity.
Defined.

Lemma get_fresh_patch_witness :
  exists v',
    (get_fresh Ex2.pyval_eq Ex2.sent Ex2.have ∪ Ex2.have) !! "age" = Some v'
    /\ (v' = VInt 31 \/ Ex2.pyval_eq (VInt 31) v' = true).
Proof.
  apply (proj2 (get_fresh_patch Ex2.pyval_eq Ex2.sent Ex2.have)).
  reflexivity.
Defined.

Lemma get_fresh_ends_witness :
  get_fresh Ex2.pyval_eq Ex2.sent Ex2.sent = ∅.
Proof.
  apply (proj2 (get_fresh_ends Ex2.pyval_eq Ex2.sent)).
  intros k v Hv. unfold Ex2.sent in Hv.
  rewrite !lookup_insert_Some, lookup_empty in Hv.
  destruct Hv as [[_ <-]|[_ [[_ <-]|[_ [[_ <-]|[_ Hv]]]]]];
    [reflexivity..|discriminate].
Defined.

(** ** create_index *)

Lemma create_loop_all_ok run keys :
  (forall key, run key = None) -> create_loop run keys = (keys, IndexDone).
Proof.
  intros H. induction keys as [|key keys IH]; [reflexivity|].
  simpl. now rewrite H, IH.
Qed.

Lemma create_loop_prefix run keys :
  (create_loop run keys).1 `prefix_of` keys.
Proof.
  induction keys as [|key keys IH]; [reflexivity|].
  simpl. destruct (run key).
  - simpl. now exists keys.
  - destruct (create_loop run keys) as [calls e]. simpl in *.
    now apply prefix_cons.
Qed.

Lemma grammar_parse_nonnil names s sorts :
  grammar_parse names s = Ok sorts -> Forall (fun spec => spec <> []) sorts.
Proof.
  unfold grammar_parse. destruct (mapM _ _) as [parsed|e]; [|discriminate].
  rewrite bind_Ok. intros [= <-]. apply List.Forall_forall.
  intros spec Hin. apply filter_In in Hin as [_ Hn]. now destruct spec.
Qed.

Lemma create_index_keys run s sorts :
  grammar_parse INDEX_NAMES s = Ok sorts ->
  create_index run (ArgStr s) = create_loop run sorts.
Proof.
  intros H. unfold create_index.
  rewrite get_sort_grammar_parse. change (names_for true) with INDEX_NAMES.
  rewrite H, bind_Ok. apply grammar_parse_nonnil in H.
  destruct sorts as [|a [|b l]]; [reflexivity| |reflexivity].
  inversion H as [|? ? Ha _]; subst. cbn. now destruct a.
Qed.

(** X22. When the driver accepts every call, [create_index] on a
    string calls it once for each non-empty group, in the order of the
    groups: the bare list that [get_sort] returns for one group and the
    list of lists it returns for several are both served, and a blank
    string makes no call. *)
Theorem create_index_one_call_per_group (run : sort_spec -> option exc)
    (s : string) (sorts : list sort_spec) :
  grammar_parse INDEX_NAMES s = Ok sorts ->
  (forall key, run key = None) ->
  create_index run (ArgStr s) = (sorts, IndexDone).
Proof.
  intros H Hrun. rewrite (create_index_keys run s sorts H).
  now apply create_loop_all_ok.
Qed.

Lemma create_index_one_call_per_group_witness :
  create_index Ex2.run_ok (ArgStr "name, age desc; loc geo2d; tag")
  = ([[("name", ASCENDING); ("age", DESCENDING)]; [("loc", GEO2D)];
      [("tag", ASCENDING)]], IndexDone)
  /\ create_index Ex2.run_ok (ArgStr "body text")
     = ([[("body", TEXT)]], IndexDone).
Proof.
  split.
  - apply create_index_one_call_per_group; [reflexivity|reflexivity].
  - apply create_index_one_call_per_group; [reflexivity|reflexivity].
Defined.

Lemma create_loop_first_raise run pre key post ex :
  Forall (fun k => run k = None) pre ->
  run key = Some ex ->
  create_loop run (pre ++ key :: post) = (pre ++ [key], IndexDriverRaised ex).
Proof.
  intros Hpre Hkey. induction Hpre as [|k pre Hk _ IH]; simpl.
  - now rewrite Hkey.
  - now rewrite Hk, IH.
Qed.

(** X23. [create_index] stops at the first call that raises: when the
    driver accepts the first groups and raises on the next one, the
    calls made are those groups and that one, in order, no later group
    is tried, and the exception is the end.  The calls are in any case
    the first groups of the string; and when a direction token is
    unknown no call is made at all. *)
Theorem create_index_calls_prefix (run : sort_spec -> option exc)
    (s : string) :
  match grammar_parse INDEX_NAMES s with
  | Ok sorts =>
      (create_index run (ArgStr s)).1 `prefix_of` sorts
      /\ forall pre key post ex,
          sorts = pre ++ key :: post ->
          Forall (fun k => run k = None) pre ->
          run key = Some ex ->
          create_index run (ArgStr s) = (pre ++ [key], IndexDriverRaised ex)
  | Raise e => create_index run (ArgStr s) = ([], IndexKeysRaised e)
  end.
Proof.
  destruct (grammar_parse INDEX_NAMES s) as [sorts|e] eqn:H.
  - rewrite (create_index_keys run s sorts H). split.
    + apply create_loop_prefix.
    + intros pre key post ex -> Hpre Hkey.
      now apply create_loop_first_raise.
  - unfold create_index. rewrite get_sort_grammar_parse.
    change (names_for true) with INDEX_NAMES. now rewrite H.
Qed.

Lemma create_index_calls_prefix_witness :
  create_index Ex2.run_no_loc (ArgStr "name; loc geo2d; tag")
  = ([[("name", ASCENDING)]; [("loc", GEO2D)]],
     IndexDriverRaised (Exc "OperationFailure" "bad index key")).
Proof.
  pose proof (create_index_calls_prefix Ex2.run_no_loc
                "name; loc geo2d; tag") as H.
  change (grammar_parse INDEX_NAMES "name; loc geo2d; tag")
    with (Ok [[("name", ASCENDING)]; [("loc", GEO2D)]; [("tag", ASCENDING)]])
    in H.
  destruct H as [_ H].
  apply (H [[("name", ASCENDING)]] [("loc", GEO2D)] [[("tag", ASCENDING)]]).
  - reflexivity.
  - repeat constructor.
  - reflexivity.
Defined.

(** ** The wrapper: what can come out, and the control keywords *)





